(** * Mortal Coil Arena: the level catalogue and the game engine

    A shallow embedding of [server/mortal-coil.js]: the board parser, the
    level loader, [startGame], the slide loop of [executeMove] and the
    win / stuck detection, with the properties the specification states
    about them.

    Conventions of the embedding
    - Grid coordinates, level identifiers and counters are integers
      ([Z]), as the specification types them; what else [parseInt] can
      hand to [startGame] ([NaN], an infinity) is covered by
      [startGameNum].
    - A direction is whatever string the request carries: the lookup in
      the direction tables is modelled with the prototype chain of an
      object literal.
    - The single global [gameState] object is threaded explicitly: every
      operation takes the state before and yields the state after.
    - [broadcastState()] serialises the state at the moment it is called;
      an operation yields the list of snapshots it has sent.
    - Reading a property of [undefined] raises a [TypeError]; an
      operation that raises is a [Throws] outcome carrying the state the
      global object is left in. *)

From Stdlib Require Import ZArith Lia String Ascii.
From stdpp Require Import base option list gmap strings.
From Equations Require Import Equations.
From Equations.Prop Require Import Logic.

Local Open Scope Z_scope.

(** ** Data model *)

(** One entry of [mortal-coil-levels.json]. *)
Module Level.
Record t : Type := Build { width : Z; height : Z; boardStr : string }.
End Level.

(** A board cell: [{ blocked, visited }]. *)
Record Cell : Type := mkCell { blocked : bool; visited : bool }.

(** The global [gameState] object. *)
Record GameState : Type := mkState {
  levelId : Z;
  board : list (list Cell);
  width : Z;
  height : Z;
  playerX : Z;
  playerY : Z;
  started : bool;
  finished : bool;
  won : bool;
  visitedCount : Z;
  totalCells : Z
}.

(** The object literal the module starts with, before [loadLevel(0)]. *)
Definition gameState0 : GameState :=
  {| levelId := 0; board := []; width := 0; height := 0;
     playerX := -1; playerY := -1;
     started := false; finished := false; won := false;
     visitedCount := 0; totalCells := 0 |}.

(** What an operation does: it returns a value, leaving the state [s] and
    having broadcast the snapshots [sent] (oldest first), or it raises. *)
Inductive Outcome (R : Type) : Type :=
| Returns (r : R) (s : GameState) (sent : list GameState)
| Throws (s : GameState).
Arguments Returns {R} r s sent.
Arguments Throws {R} s.

Definition stateAfter {R} (o : Outcome R) : GameState :=
  match o with Returns _ s _ => s | Throws s => s end.

Definition sentBy {R} (o : Outcome R) : list GameState :=
  match o with Returns _ _ sent => sent | Throws _ => [] end.

(** The failure messages of the engine, by the name the specification
    gives each of them. *)
Inductive Failure : Type :=
| NotActive | InvalidDirection | NoMovement
| AlreadyStarted | OutOfBounds | BlockedCell.

Definition message (f : Failure) : string :=
  match f with
  | NotActive => "Game not started or already finished"
  | InvalidDirection => "Invalid direction. Use: up, down, left, right"
  | NoMovement => "Cannot move in that direction"
  | AlreadyStarted => "Game already started"
  | OutOfBounds => "Invalid start position"
  | BlockedCell => "Cannot start on a blocked cell"
  end.

(** The object [executeMove] returns. *)
Inductive MoveResult : Type :=
| MoveFailure (f : Failure)
| MoveSuccess (fin w : bool) (px py vc tc : Z).

(** The object [startGame] returns. *)
Inductive StartResult : Type :=
| StartFailure (f : Failure)
| StartSuccess.

(** ** Board construction *)

(** [0, 1, ..., n-1]: the values a [for (let i = 0; i < n; i++)] loop
    visits; none when [n <= 0]. *)
Definition range (n : Z) : list Z := Z.of_nat <$> seq 0 (Z.to_nat n).

(** [boardStr[i]]: [undefined] past either end of the string. *)
Definition charAt (boardStr : string) (i : Z) : option ascii :=
  if i <? 0 then None else String.get (Z.to_nat i) boardStr.

(** [char === 'X'] *)
Definition isX (char : option ascii) : bool :=
  match char with
  | Some c => if decide (c = "X"%char) then true else false
  | None => false
  end.

Definition parseBoard (boardStr : string) (width height : Z) : list (list Cell) :=
  (λ y, (λ x, let char := charAt boardStr (y * width + x) in
              {| blocked := isX char; visited := isX char |})
        <$> range width)
  <$> range height.

Definition countPlayableCells (board : list (list Cell)) : Z :=
  foldl (λ count row,
           foldl (λ count cell, if negb (blocked cell) then count + 1 else count)
                 count row)
        0 board.

(** ** Directions *)

Inductive Direction : Type := Up | Down | Left | Right.

Definition token (d : Direction) : string :=
  match d with Up => "up" | Down => "down" | Left => "left" | Right => "right" end.

(** [{ up: 0, down: 0, left: -1, right: 1 }] *)
Definition dx (d : Direction) : Z :=
  match d with Up => 0 | Down => 0 | Left => -1 | Right => 1 end.

(** [{ up: -1, down: 1, left: 0, right: 0 }] *)
Definition dy (d : Direction) : Z :=
  match d with Up => -1 | Down => 1 | Left => 0 | Right => 0 end.

Definition directions : list Direction := [Up; Down; Left; Right].

(** The property names every object literal inherits from
    [Object.prototype]. *)
Definition objectPrototypeKeys : list string :=
  ["constructor"; "hasOwnProperty"; "isPrototypeOf"; "propertyIsEnumerable";
   "toLocaleString"; "toString"; "valueOf"; "__proto__";
   "__defineGetter__"; "__defineSetter__";
   "__lookupGetter__"; "__lookupSetter__"]%string.

(** What [table[direction]] evaluates to on the two object literals of
    [executeMove] and [isValidMove], which have the same four own keys:
    the number stored under an own key, a function or object found on
    the prototype chain, or [undefined]. *)
Inductive Lookup : Type :=
| Own (d : Direction)
| Inherited
| Undefined.

Definition lookupDirection (direction : string) : Lookup :=
  if decide (direction = "up"%string) then Own Up
  else if decide (direction = "down"%string) then Own Down
  else if decide (direction = "left"%string) then Own Left
  else if decide (direction = "right"%string) then Own Right
  else if decide (direction ∈ objectPrototypeKeys) then Inherited
  else Undefined.

(** ** Cells of the board *)

(** [board[y][x]]; [None] stands for the [TypeError] (no such row) or
    for [undefined] (no such column), whose first property read raises
    the same error. *)
Definition cellAt (board : list (list Cell)) (y x : Z) : option Cell :=
  if (y <? 0) || (x <? 0) then None
  else board !! Z.to_nat y ≫= λ row, row !! Z.to_nat x.

(** [cell.visited = true] on the cell object stored at [board[y][x]]. *)
Definition markVisited (board : list (list Cell)) (y x : Z) : list (list Cell) :=
  alter (alter (λ cell, {| blocked := blocked cell; visited := true |})
               (Z.to_nat x))
        (Z.to_nat y) board.

(** The bounds test of the slide loop and of [isValidMove], negated. *)
Definition inBounds (s : GameState) (x y : Z) : bool :=
  negb ((x <? 0) || (x >=? width s) || (y <? 0) || (y >=? height s)).

(** The four assignments that move the player onto [(newX, newY)]. *)
Definition enterCell (s : GameState) (newX newY : Z) : GameState :=
  {| levelId := levelId s;
     board := markVisited (board s) newY newX;
     width := width s;
     height := height s;
     playerX := newX;
     playerY := newY;
     started := started s;
     finished := finished s;
     won := won s;
     visitedCount := visitedCount s + 1;
     totalCells := totalCells s |}.

(** One pass through the body of [while (true)]. *)
Inductive Step : Type :=
| Stop                     (* [break] *)
| Raise                    (* [TypeError] *)
| Enter (s' : GameState).  (* the cell was entered; loop again *)

Definition step (d : Direction) (s : GameState) : Step :=
  let newX := playerX s + dx d in
  let newY := playerY s + dy d in
  if negb (inBounds s newX newY) then Stop
  else match cellAt (board s) newY newX with
       | None => Raise
       | Some cell =>
           if blocked cell || visited cell then Stop
           else Enter (enterCell s newX newY)
       end.

(** How many more cells lie between the player and the edge the
    direction points to: the quantity that shrinks on every pass. *)
Definition room (d : Direction) (s : GameState) : nat :=
  match d with
  | Up => Z.to_nat (playerY s + 1)
  | Down => Z.to_nat (height s - playerY s)
  | Left => Z.to_nat (playerX s + 1)
  | Right => Z.to_nat (width s - playerX s)
  end.

(** How the loop ends: by [break], with the flag [moved], or by an
    exception. *)
Inductive Slide : Type :=
| Broke (s : GameState) (moved : bool)
| Thrown (s : GameState).

Equations? slide (d : Direction) (s : GameState) (moved : bool) : Slide
  by wf (room d s) lt :=
  slide d s moved with inspect (step d s) := {
    | exist _ Stop _ => Broke s moved
    | exist _ Raise _ => Thrown s
    | exist _ (Enter s') H => slide d s' true }.
Proof.
  revert H. unfold step, inBounds; cbv zeta.
  case_match; [discriminate|].
  case_match; [|discriminate].
  case_match; [discriminate|].
  intros [= <-]. destruct d; cbn in *; lia.
Qed.

(** ** Moves *)

(** [isValidMove(direction)]; [None] when it raises. *)
Definition isValidMove (direction : string) (s : GameState) : option bool :=
  if negb (started s) || finished s then Some false
  else match lookupDirection direction with
       | Undefined => Some false
       | Inherited =>
           (* [newX] and [newY] are strings, every comparison with them
              is false, [board[newY]] is [undefined] *)
           None
       | Own d =>
           let newX := playerX s + dx d in
           let newY := playerY s + dy d in
           if negb (inBounds s newX newY) then Some false
           else cell ← cellAt (board s) newY newX;
                Some (negb (blocked cell) && negb (visited cell))
       end.

(** [dirs.some(dir => isValidMove(dir))] *)
Fixpoint someValidMove (dirs : list string) (s : GameState) : option bool :=
  match dirs with
  | [] => Some false
  | dir :: dirs =>
      match isValidMove dir s with
      | None => None
      | Some true => Some true
      | Some false => someValidMove dirs s
      end
  end.

(** [gameState.finished = f; gameState.won = w] *)
Definition setOutcome (f w : bool) (s : GameState) : GameState :=
  {| levelId := levelId s; board := board s;
     width := width s; height := height s;
     playerX := playerX s; playerY := playerY s;
     started := started s; finished := f; won := w;
     visitedCount := visitedCount s; totalCells := totalCells s |}.

(** The object a successful [executeMove] returns, read off the state. *)
Definition moveSuccess (s : GameState) : MoveResult :=
  MoveSuccess (finished s) (won s) (playerX s) (playerY s)
              (visitedCount s) (totalCells s).

Definition executeMove (direction : string) (s : GameState) : Outcome MoveResult :=
  if negb (started s) || finished s then Returns (MoveFailure NotActive) s []
  else match lookupDirection direction with
       | Undefined => Returns (MoveFailure InvalidDirection) s []
       | Inherited =>
           (* neither [dx] nor [dy] is [undefined]; the first pass of the
              loop reads [board[newY][newX]] with [board[newY]]
              [undefined] *)
           Throws s
       | Own d =>
           match slide d s false with
           | Thrown s1 => Throws s1
           | Broke s1 moved =>
               if negb moved then Returns (MoveFailure NoMovement) s1 []
               else
                 (* Check win condition *)
                 let s2 := if visitedCount s1 =? totalCells s1
                           then setOutcome true true s1 else s1 in
                 (* Check if stuck (no more valid moves) *)
                 match someValidMove (token <$> directions) s2 with
                 | None => Throws s2
                 | Some canMove =>
                     let s3 := if negb canMove && negb (won s2)
                               then setOutcome true false s2 else s2 in
                     Returns (moveSuccess s3) s3 [s3]
                 end
           end
       end.

(** ** Starting *)

(** The five assignments that put the player on the start cell. *)
Definition placePlayer (s : GameState) (x y : Z) : GameState :=
  {| levelId := levelId s;
     board := markVisited (board s) y x;
     width := width s;
     height := height s;
     playerX := x;
     playerY := y;
     started := true;
     finished := finished s;
     won := won s;
     visitedCount := 1;
     totalCells := totalCells s |}.

Definition startGame (x y : Z) (s : GameState) : Outcome StartResult :=
  if started s then Returns (StartFailure AlreadyStarted) s []
  else if negb (inBounds s x y) then Returns (StartFailure OutOfBounds) s []
  else match cellAt (board s) y x with
       | None => Throws s
       | Some cell =>
           if blocked cell then Returns (StartFailure BlockedCell) s []
           else Returns StartSuccess (placePlayer s x y) [placePlayer s x y]
       end.

(** ** Loading and resetting *)

Section Engine.

(** [levels]: the parsed catalogue, read once at start-up. *)
Variable levels : gmap Z Level.t.

Definition loadLevel (id : Z) (s : GameState) : bool * GameState :=
  match levels !! id with
  | None => (false, s)
  | Some level =>
      let board := parseBoard (Level.boardStr level)
                              (Level.width level) (Level.height level) in
      (true,
       {| levelId := id;
          width := Level.width level;
          height := Level.height level;
          board := board;
          playerX := -1;
          playerY := -1;
          started := false;
          finished := false;
          won := false;
          visitedCount := 0;
          totalCells := countPlayableCells board |})
  end.

(** The handler of [POST /api/level/:id], past the parsing of [id]:
    [true] for the 200 answer, [false] for the 404. *)
Definition postLevel (id : Z) (s : GameState) : Outcome bool :=
  let '(ok, s') := loadLevel id s in
  if ok then Returns true s' [s'] else Returns false s' [].

(** The handler of [POST /api/reset]. *)
Definition resetLevel (s : GameState) : Outcome unit :=
  let '(_, s') := loadLevel (levelId s) s in
  Returns tt s' [s'].

End Engine.

(** ** Notions of the specification *)

(** The board has [height] rows of [width] cells each. *)
Definition rectangular (s : GameState) : Prop :=
  length (board s) = Z.to_nat (height s) ∧
  Forall (λ row : list Cell, length row = Z.to_nat (width s)) (board s).

(** How many cells of the board satisfy [p]. *)
Definition count (p : Cell → bool) (board : list (list Cell)) : Z :=
  Z.of_nat (length (filter (λ cell, p cell = true) (concat board))).

(** A playable cell. *)
Definition playable (cell : Cell) : bool := negb (blocked cell).

(** A playable cell the player has been on. *)
Definition entered (cell : Cell) : bool := negb (blocked cell) && visited cell.

(** The cell [(x, y)] is in bounds, not blocked and not visited. *)
Definition free (s : GameState) (x y : Z) : bool :=
  inBounds s x y &&
  match cellAt (board s) y x with
  | Some cell => negb (blocked cell) && negb (visited cell)
  | None => false
  end.

(** [canStepTo]: the single step from the player's position in the
    direction lands in bounds, on a non-blocked, non-visited cell. *)
Definition canStepTo (d : Direction) (s : GameState) : bool :=
  free s (playerX s + dx d) (playerY s + dy d).

(** The cell a character of [boardStr] stands for: ['X'] is a blocked
    cell, which counts as visited; anything else is an open, unvisited
    cell. *)
Definition cellOf (char : option ascii) : Cell :=
  {| blocked := isX char; visited := isX char |}.

(** The [i]-th cell from the player in direction [d]. *)
Definition aheadX (d : Direction) (s : GameState) (i : Z) : Z := playerX s + i * dx d.
Definition aheadY (d : Direction) (s : GameState) (i : Z) : Z := playerY s + i * dy d.

(** [Slid d k s s1]: [s1] is [s] after a slide of [k] cells in direction
    [d]. The [k] cells ahead of the player were free and are now
    visited, the player stands on the last of them, [visitedCount] has
    grown by [k], and nothing else has changed. *)
Record Slid (d : Direction) (k : Z) (s s1 : GameState) : Prop := {
  slid_levelId : levelId s1 = levelId s;
  slid_width : width s1 = width s;
  slid_height : height s1 = height s;
  slid_started : started s1 = started s;
  slid_finished : finished s1 = finished s;
  slid_won : won s1 = won s;
  slid_totalCells : totalCells s1 = totalCells s;
  slid_playerX : playerX s1 = aheadX d s k;
  slid_playerY : playerY s1 = aheadY d s k;
  slid_visitedCount : visitedCount s1 = visitedCount s + k;
  slid_free : ∀ i, 1 ≤ i ≤ k → free s (aheadX d s i) (aheadY d s i) = true;
  slid_path : ∀ i, 1 ≤ i ≤ k →
              cellAt (board s1) (aheadY d s i) (aheadX d s i) =
              Some {| blocked := false; visited := true |};
  slid_rest : ∀ x y,
              (∀ i, 1 ≤ i ≤ k → ¬ (x = aheadX d s i ∧ y = aheadY d s i)) →
              cellAt (board s1) y x = cellAt (board s) y x;
  slid_rectangular : rectangular s1;
  slid_entered : count entered (board s1) = count entered (board s) + k;
  slid_playable : count playable (board s1) = count playable (board s)
}.

(** The evaluation that ends a successful move: the win, or else the
    dead end. *)
Definition conclude (s : GameState) : GameState :=
  if visitedCount s =? totalCells s then setOutcome true true s
  else if negb (canStepTo Up s || canStepTo Down s ||
                canStepTo Left s || canStepTo Right s) && negb (won s)
       then setOutcome true false s
       else s.

(** What holds of the global state at every point of a run. *)
Record Inv (s : GameState) : Prop := {
  inv_rectangular : rectangular s;
  inv_visitedCount : visitedCount s = count entered (board s);
  inv_totalCells : totalCells s = count playable (board s);
  inv_won : won s = true → finished s = true ∧ visitedCount s = totalCells s;
  inv_finished : finished s = true → started s = true;
  inv_fresh : started s = false →
              visitedCount s = 0 ∧ playerX s = -1 ∧ playerY s = -1;
  inv_player : started s = true → inBounds s (playerX s) (playerY s) = true
}.

(** The requests that reach the engine. *)
Inductive Op : Type :=
| OpLoad (id : Z)
| OpStart (x y : Z)
| OpMove (direction : string)
| OpReset.

Definition run (levels : gmap Z Level.t) (op : Op) (s : GameState) : GameState :=
  match op with
  | OpLoad id => stateAfter (postLevel levels id s)
  | OpStart x y => stateAfter (startGame x y s)
  | OpMove direction => stateAfter (executeMove direction s)
  | OpReset => stateAfter (resetLevel levels s)
  end.

Definition runAll (levels : gmap Z Level.t) (ops : list Op) (s : GameState) : GameState :=
  foldl (λ s op, run levels op s) s ops.

(** The requests that neither load nor reset a level. *)
Definition keepsLevel (op : Op) : bool :=
  match op with OpMove _ | OpStart _ _ => true | OpLoad _ | OpReset => false end.

(** What holds, on a level with a single playable cell, of the state for
    as long as level [id] stays loaded. *)
Definition onSingle (id : Z) (t : GameState) : Prop :=
  Inv t ∧ levelId t = id ∧ totalCells t = 1 ∧
  finished t = false ∧ won t = false ∧
  (started t = true → visitedCount t = 1).

(** The states the server can be in. *)
Definition reachable (levels : gmap Z Level.t) (s : GameState) : Prop :=
  ∃ ops, s = runAll levels ops gameState0.

(** ** A small catalogue

    Three one-row levels of three cells: all open, the middle one
    blocked, and only the middle one open. *)

Definition demoLevels : gmap Z Level.t :=
  {[ 0 := Level.Build 3 1 "..."; 1 := Level.Build 3 1 ".X."; 2 := Level.Build 3 1 "X.X" ]}.

(** Level 0 loaded, and then entered at its left end, at its middle. *)
Definition demoFresh : GameState := runAll demoLevels [OpLoad 0] gameState0.
Definition demoLeft : GameState := runAll demoLevels [OpLoad 0; OpStart 0 0] gameState0.
Definition demoMiddle : GameState := runAll demoLevels [OpLoad 0; OpStart 1 0] gameState0.

(** Level 1 entered at its left end; level 2 loaded, and entered at its
    only open cell. *)
Definition demoWalled : GameState := runAll demoLevels [OpLoad 1; OpStart 0 0] gameState0.
Definition demoSingle : GameState := runAll demoLevels [OpLoad 2] gameState0.
Definition demoSingleStarted : GameState :=
  runAll demoLevels [OpLoad 2; OpStart 1 0] gameState0.

(** Level 0 after the slide from its left end to its right end, which
    wins it; and after the slide from its middle to its right end, which
    strands the player. *)
Definition demoWon : GameState := runAll demoLevels [OpMove "right"] demoLeft.
Definition demoStuck : GameState := runAll demoLevels [OpMove "right"] demoMiddle.

(** ** Start-up and the move route *)

(** The state the server listens with: the object literal after the
    [loadLevel(0)] that ends the module. *)
Definition serverStart (levels : gmap Z Level.t) : GameState :=
  (loadLevel levels 0 gameState0).2.

(** A number [parseInt] can return: an integer, [NaN], or an infinity
    (for a run of digits too long for a double). *)
Inductive Num : Type :=
| Int (z : Z)
| NaN
| PosInf
| NegInf.

(** [a < b] and [a >= b] with [b] an integer: both false when [a] is
    [NaN]. *)
Definition ltNum (a : Num) (b : Z) : bool :=
  match a with Int z => z <? b | NegInf => true | NaN | PosInf => false end.

Definition geNum (a : Num) (b : Z) : bool :=
  match a with Int z => z >=? b | PosInf => true | NaN | NegInf => false end.

(** [startGame(x, y)] on whatever numbers the start route hands it. *)
Definition startGameNum (x y : Num) (s : GameState) : Outcome StartResult :=
  if started s then Returns (StartFailure AlreadyStarted) s []
  else if ltNum x 0 || geNum x (width s) || ltNum y 0 || geNum y (height s)
  then Returns (StartFailure OutOfBounds) s []
  else match x, y with
       | Int x, Int y =>
           match cellAt (board s) y x with
           | None => Throws s
           | Some cell =>
               if blocked cell then Returns (StartFailure BlockedCell) s []
               else Returns StartSuccess (placePlayer s x y) [placePlayer s x y]
           end
       | _, _ =>
           (* an index that is no integer finds no row, or no cell in
              the row, and [cell.blocked] reads a property of
              [undefined] *)
           Throws s
       end.

(** The value [req.body.direction] of a parsed JSON body. Strings are
    sequences of code units below 256; a number is kept as an integer
    (a fraction behaves as a non-zero integer does); of an array or an
    object only this matters: it is truthy and has no [toLowerCase]. *)
Inductive JsValue : Type :=
| JUndefined
| JNull
| JBool (b : bool)
| JNumber (n : Z)
| JString (str : string)
| JArray
| JObject.

(** [!direction] *)
Definition falsy (v : JsValue) : bool :=
  match v with
  | JUndefined | JNull => true
  | JBool b => negb b
  | JNumber n => n =? 0
  | JString str => if decide (str = ""%string) then true else false
  | JArray | JObject => false
  end.

(** [String.prototype.toLowerCase] on one code unit below 256: the
    letters [A-Z] and the capital letters of the Latin-1 supplement
    (192 to 222, the multiplication sign 215 apart) move up by 32. *)
Definition lowerChar (c : ascii) : ascii :=
  let n := nat_of_ascii c in
  if ((65 <=? n) && (n <=? 90) ||
      (192 <=? n) && (n <=? 222) && negb (n =? 215))%nat
  then ascii_of_nat (n + 32) else c.

Fixpoint toLowerCase (str : string) : string :=
  match str with
  | EmptyString => EmptyString
  | String c str => String (lowerChar c) (toLowerCase str)
  end.

(** What the handler of [POST /api/move] answers. *)
Inductive MoveReply : Type :=
| BadRequest                 (* status 400, 'direction required ...' *)
| MoveJson (r : MoveResult). (* [res.json(executeMove(...))] *)

(** The handler of [POST /api/move], from the value of [direction] on. *)
Definition postMove (direction : JsValue) (s : GameState) : Outcome MoveReply :=
  if falsy direction then Returns BadRequest s []
  else match direction with
       | JString str =>
           match executeMove (toLowerCase str) s with
           | Returns r s' sent => Returns (MoveJson r) s' sent
           | Throws s' => Throws s'
           end
       | _ => Throws s   (* [direction.toLowerCase] is not a function *)
       end.

(** ** Further notions *)

Definition opposite (d : Direction) : Direction :=
  match d with Up => Down | Down => Up | Left => Right | Right => Left end.

(** The move returned the success object. *)
Definition succeeded (o : Outcome MoveResult) : bool :=
  match o with
  | Returns (MoveSuccess _ _ _ _ _ _) _ _ => true
  | _ => false
  end.

(** How many of the moves requested one after the other succeed. *)
Fixpoint successes (dirs : list string) (s : GameState) : nat :=
  match dirs with
  | [] => 0%nat
  | dir :: dirs =>
      let o := executeMove dir s in
      ((if succeeded o then 1 else 0) + successes dirs (stateAfter o))%nat
  end.

(** What the cells of the board tell about the state, at every point of
    a run: a blocked cell counts as visited; before the start no open
    cell is visited; after it the player stands on an open, visited
    cell; a stuck game is an incomplete one with no step left. *)
Record Coherent (s : GameState) : Prop := {
  coh_blocked : ∀ y x cell, cellAt (board s) y x = Some cell →
                            blocked cell = true → visited cell = true;
  coh_fresh : started s = false →
              ∀ y x cell, cellAt (board s) y x = Some cell →
                          visited cell = blocked cell;
  coh_player : started s = true →
               cellAt (board s) (playerY s) (playerX s) =
               Some {| blocked := false; visited := true |};
  coh_stuck : finished s = true → won s = false →
              visitedCount s ≠ totalCells s ∧ ∀ d, canStepTo d s = false
}.

(** The characters of a string, as [boardStr[0]], [boardStr[1]], ... *)
Definition chars (boardStr : string) : list ascii := list_ascii_of_string boardStr.

(** An upper-case letter [A-Z]. *)
Definition isUpper (c : ascii) : bool :=
  let n := nat_of_ascii c in ((65 <=? n) && (n <=? 90))%nat.

Fixpoint hasUpper (str : string) : bool :=
  match str with
  | EmptyString => false
  | String c str => isUpper c || hasUpper str
  end.

(** The blocked cells of the board are the ['X'] of the level whose
    identifier the state carries. *)
Definition Faithful (levels : gmap Z Level.t) (s : GameState) : Prop :=
  ∀ level, levels !! levelId s = Some level →
  ∀ y x cell, cellAt (board s) y x = Some cell →
              blocked cell = isX (charAt (Level.boardStr level)
                                         (y * Level.width level + x)).

(** A catalogue with one open square of two by two cells, entered at
    its top left corner. *)
Definition squareLevels : gmap Z Level.t := {[ 0 := Level.Build 2 2 "...." ]}.
Definition squareCorner : GameState :=
  runAll squareLevels [OpLoad 0; OpStart 0 0] gameState0.

(** * Properties *)

(** ** Cells *)

Lemma step_room d s s' : step d s = Enter s' → (room d s' < room d s)%nat.
Proof.
  unfold step, inBounds; cbv zeta.
  case_match; [discriminate|].
  case_match; [|discriminate].
  case_match; [discriminate|].
  intros [= <-]. destruct d; cbn in *; lia.
Qed.

Lemma inBounds_spec s x y :
  inBounds s x y = true ↔ 0 ≤ x < width s ∧ 0 ≤ y < height s.
Proof. unfold inBounds. lia. Qed.

Lemma cellAt_Some board y x cell :
  cellAt board y x = Some cell ↔
  0 ≤ y ∧ 0 ≤ x ∧
  ∃ row, board !! Z.to_nat y = Some row ∧ row !! Z.to_nat x = Some cell.
Proof.
  unfold cellAt. case_match eqn:Hneg.
  - split; [done|]. lia.
  - rewrite bind_Some. split; [intros; split_and!; [lia..|done]|tauto].
Qed.

Lemma cellAt_inBounds s x y :
  rectangular s → inBounds s x y = true → is_Some (cellAt (board s) y x).
Proof.
  intros [Hh Hw] [Hx Hy]%inBounds_spec.
  destruct (lookup_lt_is_Some_2 (board s) (Z.to_nat y)) as [row Hrow]; [lia|].
  assert (length row = Z.to_nat (width s)) as Hlen
    by (eapply Forall_lookup_1 in Hw; eauto).
  destruct (lookup_lt_is_Some_2 row (Z.to_nat x)) as [cell Hcell]; [lia|].
  exists cell. apply cellAt_Some. eauto with lia.
Qed.

Lemma cellAt_markVisited board y x y' x' :
  0 ≤ y → 0 ≤ x →
  cellAt (markVisited board y x) y' x' =
  if decide (y' = y ∧ x' = x)
  then (λ cell, {| blocked := blocked cell; visited := true |})
         <$> cellAt board y x
  else cellAt board y' x'.
Proof.
  intros Hy Hx. unfold cellAt, markVisited.
  destruct (decide _) as [[-> ->]|Hne].
  - case_match; [done|].
    rewrite list_lookup_alter_eq.
    destruct (board !! Z.to_nat y) as [row|]; [|done]. cbn.
    by rewrite list_lookup_alter_eq.
  - case_match eqn:Hneg; [done|].
    destruct (decide (Z.to_nat y' = Z.to_nat y)) as [Heq|Hney].
    + rewrite Heq, list_lookup_alter_eq.
      destruct (board !! Z.to_nat y) as [row|]; [|done]. cbn.
      rewrite list_lookup_alter_ne; [done|]. lia.
    + by rewrite list_lookup_alter_ne.
Qed.

Lemma rectangular_markVisited (w h : nat) board y x :
  length board = h ∧ Forall (λ row : list Cell, length row = w) board →
  length (markVisited board y x) = h ∧
  Forall (λ row : list Cell, length row = w) (markVisited board y x).
Proof.
  unfold markVisited. intros [Hh Hw]. split; [by rewrite length_alter|].
  apply Forall_lookup. intros i row.
  rewrite list_lookup_alter. case_decide.
  - rewrite fmap_Some. intros (row' & Hrow' & ->).
    rewrite length_alter. eapply Forall_lookup_1 in Hw; eauto.
  - intros. eapply Forall_lookup_1 in Hw; eauto.
Qed.

(** ** The slide loop, one pass at a time *)

Lemma slide_pass d s moved :
  slide d s moved =
  match step d s with
  | Stop => Broke s moved
  | Raise => Thrown s
  | Enter s' => slide d s' true
  end.
Proof.
  simp slide. unfold inspect.
  enough (∀ st (H : step d s = st),
            slide_unfold_clause_1 d s (st ↾ H) moved =
            match st with
            | Stop => Broke s moved
            | Raise => Thrown s
            | Enter s' => slide d s' true
            end) as A by apply A.
  intros [| |s'] H; reflexivity.
Qed.

(** Induction along the passes of the loop. *)
Lemma slide_passes d (Q : GameState → bool → Slide → Prop) :
  (∀ s moved, step d s = Stop → Q s moved (Broke s moved)) →
  (∀ s moved, step d s = Raise → Q s moved (Thrown s)) →
  (∀ s moved s', step d s = Enter s' →
                 Q s' true (slide d s' true) → Q s moved (slide d s' true)) →
  ∀ s moved, Q s moved (slide d s moved).
Proof.
  intros HStop HRaise HEnter s.
  remember (room d s) as n eqn:Hn. revert s Hn.
  induction n as [n IH] using lt_wf_ind. intros s -> moved.
  rewrite slide_pass. destruct (step d s) as [| |s'] eqn:Hstep; auto.
  apply HEnter; [done|].
  eapply IH; [|reflexivity]. by apply step_room.
Qed.


(** ** Counting cells *)

Section Counting.
Variable p : Cell → bool.
Let P := λ cell, p cell = true.

Lemma count_row_alter f (row : list Cell) j cell :
  row !! j = Some cell →
  (length (filter P (alter f j row)) + Nat.b2n (p cell) =
   length (filter P row) + Nat.b2n (p (f cell)))%nat.
Proof.
  revert j. induction row as [|c row IH]; intros [|j] Hj; try done.
  - injection Hj as ->. cbn [alter list_alter].
    rewrite !filter_cons. clear IH.
    repeat case_decide; unfold P in *;
      destruct (p cell), (p (f cell)); try done; cbn; lia.
  - cbn [alter list_alter]. rewrite !filter_cons.
    specialize (IH j Hj). fold (alter f j row).
    case_decide; cbn; lia.
Qed.

Lemma count_board_alter f (board : list (list Cell)) i j row cell :
  board !! i = Some row → row !! j = Some cell →
  (length (filter P (concat (alter (alter f j) i board))) + Nat.b2n (p cell) =
   length (filter P (concat board)) + Nat.b2n (p (f cell)))%nat.
Proof.
  revert i. induction board as [|r board IH]; intros [|i] Hi Hj; try done.
  - injection Hi as ->. cbn [alter list_alter concat].
    rewrite !filter_app, !length_app.
    pose proof (count_row_alter f row j cell Hj). lia.
  - cbn [alter list_alter concat]. fold (alter (alter f j) i board).
    rewrite !filter_app, !length_app.
    specialize (IH i Hi Hj). lia.
Qed.

Lemma count_markVisited board y x cell :
  cellAt board y x = Some cell →
  count p (markVisited board y x) + Z.b2z (p cell) =
  count p board + Z.b2z (p {| blocked := blocked cell; visited := true |}).
Proof.
  intros (_ & _ & row & Hrow & Hcell)%cellAt_Some.
  unfold count, markVisited.
  pose proof (count_board_alter
                (λ cell, {| blocked := blocked cell; visited := true |})
                board _ _ row cell Hrow Hcell) as H.
  fold P. destruct (p cell), (p _); cbn in *; lia.
Qed.

Lemma count_nonneg board : 0 ≤ count p board.
Proof. unfold count. lia. Qed.

End Counting.

Lemma countPlayableCells_count board :
  countPlayableCells board = count playable board.
Proof.
  unfold countPlayableCells, count.
  enough (∀ acc,
    foldl (λ count row,
             foldl (λ count cell, if negb (blocked cell) then count + 1 else count)
                   count row) acc board =
    acc + Z.of_nat (length (filter (λ cell, playable cell = true) (concat board))))
    as H by (rewrite H; lia).
  induction board as [|row board IH]; intros acc; cbn [foldl concat].
  - cbn. lia.
  - rewrite IH, filter_app, length_app.
    enough (∀ acc,
      foldl (λ count cell, if negb (blocked cell) then count + 1 else count)
            acc row =
      acc + Z.of_nat (length (filter (λ cell, playable cell = true) row)))
      as H by (rewrite H; lia).
    clear. induction row as [|cell row IH]; intros acc; cbn [foldl].
    + cbn. lia.
    + rewrite IH, filter_cons.
      case_decide as Hd; unfold playable in Hd;
        destruct (negb (blocked cell)); try done; cbn [length]; lia.
Qed.

(** When as many cells satisfy [p] as satisfy the weaker [q], every cell
    that satisfies [q] satisfies [p]. *)
Lemma count_eq_all (p q : Cell → bool) board :
  (∀ cell, p cell = true → q cell = true) →
  count p board = count q board →
  ∀ y x cell, cellAt board y x = Some cell → q cell = true → p cell = true.
Proof.
  intros Hpq Hcount y x cell (_ & _ & row & Hrow & Hcell)%cellAt_Some Hq.
  assert (cell ∈ concat board) as Hin.
  { apply list_elem_of_In, in_concat. exists row.
    split; apply list_elem_of_In; eapply list_elem_of_lookup_2; eauto. }
  unfold count in Hcount. apply Nat2Z.inj in Hcount.
  revert Hin Hcount. generalize (concat board) as l. clear -Hpq Hq.
  assert (∀ l, length (filter (λ cell, p cell = true) l) ≤
               length (filter (λ cell, q cell = true) l))%nat as Hle.
  { induction l as [|c l IH]; [done|]. rewrite !filter_cons.
    repeat case_decide; cbn; try lia. exfalso; auto. }
  induction l as [|c l IH]; [by intros ?%elem_of_nil|].
  rewrite !filter_cons. intros [<-|Hin]%elem_of_cons Hlen.
  - specialize (Hle l). destruct (decide (p cell = true)); [done|].
    rewrite decide_True in Hlen by done. cbn in Hlen. lia.
  - apply IH; [done|]. specialize (Hle l).
    repeat case_decide; cbn in Hlen; try lia. exfalso; auto.
Qed.

(** ** Freshly parsed boards *)

Lemma range_length n : length (range n) = Z.to_nat n.
Proof. unfold range. by rewrite length_fmap, length_seq. Qed.

Lemma range_lookup n (i : nat) :
  range n !! i = if decide (Z.of_nat i < n) then Some (Z.of_nat i) else None.
Proof.
  unfold range. rewrite list_lookup_fmap. case_decide.
  - rewrite lookup_seq_lt by lia. done.
  - rewrite lookup_seq_ge by lia. done.
Qed.

Lemma parseBoard_rectangular boardStr w h :
  length (parseBoard boardStr w h) = Z.to_nat h ∧
  Forall (λ row : list Cell, length row = Z.to_nat w) (parseBoard boardStr w h).
Proof.
  unfold parseBoard. split.
  - by rewrite length_fmap, range_length.
  - apply Forall_fmap, Forall_forall. intros y _. cbn.
    by rewrite length_fmap, range_length.
Qed.

Lemma parseBoard_cellAt boardStr w h y x :
  cellAt (parseBoard boardStr w h) y x =
  if decide (0 ≤ y < h ∧ 0 ≤ x < w)
  then Some (cellOf (charAt boardStr (y * w + x)))
  else None.
Proof.
  unfold cellAt, parseBoard.
  destruct (Z.ltb_spec y 0), (Z.ltb_spec x 0); cbn [orb];
    try (rewrite decide_False by lia; done).
  rewrite list_lookup_fmap, range_lookup.
  destruct (decide (Z.of_nat (Z.to_nat y) < h)); cbn.
  - rewrite list_lookup_fmap, range_lookup.
    destruct (decide (Z.of_nat (Z.to_nat x) < w)); cbn.
    + rewrite decide_True by lia. by rewrite !Z2Nat.id by lia.
    + by rewrite decide_False by lia.
  - by rewrite decide_False by lia.
Qed.

Lemma parseBoard_entered boardStr w h :
  count entered (parseBoard boardStr w h) = 0.
Proof.
  unfold count.
  enough (filter (λ cell, entered cell = true)
                 (concat (parseBoard boardStr w h)) = []) as -> by done.
  assert (∀ l : list Cell,
            Forall (λ cell, entered cell ≠ true) l →
            filter (λ cell, entered cell = true) l = []) as Hnone.
  { induction 1; [done|]. by rewrite filter_cons_False. }
  apply Hnone, Forall_forall.
  intros cell (row & Hrow & Hcell)%list_elem_of_In%in_concat.
  apply list_elem_of_In in Hrow, Hcell.
  unfold parseBoard in Hrow.
  apply list_elem_of_fmap in Hrow as (y & -> & _).
  apply list_elem_of_fmap in Hcell as (x & -> & _).
  unfold entered. cbn. by destruct (isX _).
Qed.

(** ** One pass of the loop *)

Lemma step_canStepTo d s :
  rectangular s →
  step d s = if canStepTo d s
             then Enter (enterCell s (playerX s + dx d) (playerY s + dy d))
             else Stop.
Proof.
  intros Hrect. unfold step, canStepTo, free; cbv zeta.
  destruct (inBounds _ _ _) eqn:Hin; cbn [negb andb]; [|done].
  destruct (cellAt_inBounds _ _ _ Hrect Hin) as [cell ->].
  by destruct (blocked cell), (visited cell).
Qed.

Lemma canStepTo_cell d s :
  canStepTo d s = true →
  inBounds s (playerX s + dx d) (playerY s + dy d) = true ∧
  cellAt (board s) (playerY s + dy d) (playerX s + dx d) =
    Some {| blocked := false; visited := false |}.
Proof.
  unfold canStepTo, free. intros [Hin Hcell]%andb_prop. split; [done|].
  destruct (cellAt _ _ _) as [[[] []]|]; done.
Qed.

Lemma isValidMove_canStepTo d s :
  rectangular s → started s = true → finished s = false →
  isValidMove (token d) s = Some (canStepTo d s).
Proof.
  intros Hrect Hs Hf. unfold isValidMove, canStepTo, free.
  rewrite Hs, Hf. cbn [negb orb].
  replace (lookupDirection (token d)) with (Own d) by by destruct d.
  cbv zeta. destruct (inBounds _ _ _) eqn:Hin; cbn [negb andb]; [|done].
  by destruct (cellAt_inBounds _ _ _ Hrect Hin) as [cell ->].
Qed.

Lemma isValidMove_finished direction s :
  finished s = true → isValidMove direction s = Some false.
Proof. unfold isValidMove. intros ->. by rewrite orb_true_r. Qed.

Lemma someValidMove_active s :
  rectangular s → started s = true → finished s = false →
  someValidMove (token <$> directions) s =
  Some (canStepTo Up s || canStepTo Down s || canStepTo Left s || canStepTo Right s).
Proof.
  intros Hrect Hs Hf. cbn [directions fmap list_fmap someValidMove].
  rewrite !isValidMove_canStepTo by done.
  by destruct (canStepTo Up s), (canStepTo Down s),
              (canStepTo Left s), (canStepTo Right s).
Qed.

Lemma someValidMove_finished dirs s :
  finished s = true → someValidMove dirs s = Some false.
Proof.
  intros Hf. induction dirs as [|dir dirs IH]; [done|].
  cbn. by rewrite isValidMove_finished.
Qed.

Lemma rectangular_enterCell s x y : rectangular s → rectangular (enterCell s x y).
Proof. apply rectangular_markVisited. Qed.

Lemma free_enterCell s x1 y1 x y :
  0 ≤ x1 → 0 ≤ y1 → ¬ (x = x1 ∧ y = y1) →
  free (enterCell s x1 y1) x y = free s x y.
Proof.
  intros Hx Hy Hne. unfold free. cbn [enterCell board].
  rewrite cellAt_markVisited by done.
  rewrite decide_False by tauto. done.
Qed.

Lemma ahead_enterCell d s i :
  let s' := enterCell s (playerX s + dx d) (playerY s + dy d) in
  aheadX d s' i = aheadX d s (i + 1) ∧ aheadY d s' i = aheadY d s (i + 1).
Proof. unfold aheadX, aheadY. cbn. lia. Qed.

Lemma ahead_inj d s i j :
  aheadX d s i = aheadX d s j → aheadY d s i = aheadY d s j → i = j.
Proof. unfold aheadX, aheadY. destruct d; cbn; lia. Qed.

Lemma ahead_1 d s :
  aheadX d s 1 = playerX s + dx d ∧ aheadY d s 1 = playerY s + dy d.
Proof. unfold aheadX, aheadY. lia. Qed.

Lemma Slid_refl d s : rectangular s → Slid d 0 s s.
Proof.
  intros Hrect.
  split; unfold aheadX, aheadY; try done; try lia; intros; lia.
Qed.

(** ** The slide, as a whole *)

Lemma slide_path d s moved :
  rectangular s →
  ∃ k s1, 0 ≤ k ∧
          slide d s moved = Broke s1 (moved || (0 <? k)) ∧
          Slid d k s s1 ∧
          free s (aheadX d s (k + 1)) (aheadY d s (k + 1)) = false ∧
          (k = 0 → s1 = s).
Proof.
  revert s moved. apply (slide_passes d (λ s moved r,
    rectangular s →
    ∃ k s1, 0 ≤ k ∧ r = Broke s1 (moved || (0 <? k)) ∧ Slid d k s s1 ∧
            free s (aheadX d s (k + 1)) (aheadY d s (k + 1)) = false ∧
            (k = 0 → s1 = s))).
  - intros s moved Hstep Hrect. rewrite step_canStepTo in Hstep by done.
    destruct (canStepTo d s) eqn:Hcan; [done|].
    exists 0, s. split_and!; [done|by rewrite orb_false_r|by apply Slid_refl| |done].
    change (0 + 1) with 1. destruct (ahead_1 d s) as [-> ->]. done.
  - intros s moved Hstep Hrect. rewrite step_canStepTo in Hstep by done.
    by destruct (canStepTo d s).
  - intros s moved s' Hstep IH Hrect. rewrite step_canStepTo in Hstep by done.
    destruct (canStepTo d s) eqn:Hcan; [|done]. injection Hstep as <-.
    set (x1 := playerX s + dx d) in *. set (y1 := playerY s + dy d) in *.
    destruct (canStepTo_cell d s Hcan) as [Hin Hcell]. fold x1 y1 in Hin, Hcell.
    apply inBounds_spec in Hin as Hin'.
    destruct (IH (rectangular_enterCell s x1 y1 Hrect))
      as (k & s1 & Hk & -> & HS & Hstop & _).
    assert (∀ i, aheadX d (enterCell s x1 y1) i = aheadX d s (i + 1) ∧
                 aheadY d (enterCell s x1 y1) i = aheadY d s (i + 1)) as Hsh
      by (intros i; apply ahead_enterCell).
    assert (∀ i, 1 ≤ i → ¬ (aheadX d s (i + 1) = x1 ∧ aheadY d s (i + 1) = y1))
      as Hoff.
    { intros i Hi [Hx Hy]. destruct (ahead_1 d s) as [H1x H1y].
      fold x1 in H1x. fold y1 in H1y. rewrite <- H1x in Hx. rewrite <- H1y in Hy.
      pose proof (ahead_inj d s _ _ Hx Hy). lia. }
    exists (k + 1), s1. split_and!; [lia| |split| |lia].
    + f_equal. rewrite orb_true_l.
      destruct (Z.ltb_spec 0 (k + 1)); [by rewrite orb_true_r|lia].
    + by rewrite (slid_levelId _ _ _ _ HS).
    + by rewrite (slid_width _ _ _ _ HS).
    + by rewrite (slid_height _ _ _ _ HS).
    + by rewrite (slid_started _ _ _ _ HS).
    + by rewrite (slid_finished _ _ _ _ HS).
    + by rewrite (slid_won _ _ _ _ HS).
    + by rewrite (slid_totalCells _ _ _ _ HS).
    + rewrite (slid_playerX _ _ _ _ HS). apply Hsh.
    + rewrite (slid_playerY _ _ _ _ HS). apply Hsh.
    + rewrite (slid_visitedCount _ _ _ _ HS). cbn. lia.
    + intros i Hi. destruct (decide (i = 1)) as [->|Hne].
      * destruct (ahead_1 d s) as [-> ->]. apply Hcan.
      * pose proof (slid_free _ _ _ _ HS (i - 1) ltac:(lia)) as Hf.
        destruct (Hsh (i - 1)) as [Hx Hy]. rewrite Hx, Hy in Hf.
        replace (i - 1 + 1) with i in * by lia.
        rewrite free_enterCell in Hf; [done|lia..|].
        specialize (Hoff (i - 1) ltac:(lia)).
        by replace (i - 1 + 1) with i in Hoff by lia.
    + intros i Hi. destruct (decide (i = 1)) as [->|Hne].
      * rewrite (slid_rest _ _ _ _ HS).
        -- cbn [enterCell board]. rewrite cellAt_markVisited by lia.
           destruct (ahead_1 d s) as [-> ->]. fold x1 y1.
           rewrite decide_True by done. by rewrite Hcell.
        -- intros j Hj [Hx Hy]. destruct (Hsh j) as [Hx' Hy'].
           rewrite Hx' in Hx. rewrite Hy' in Hy.
           pose proof (ahead_inj d s _ _ Hx Hy). lia.
      * pose proof (slid_path _ _ _ _ HS (i - 1) ltac:(lia)) as Hp.
        destruct (Hsh (i - 1)) as [Hx Hy]. rewrite Hx, Hy in Hp.
        by replace (i - 1 + 1) with i in Hp by lia.
    + intros x y Hxy. rewrite (slid_rest _ _ _ _ HS).
      * cbn [enterCell board]. rewrite cellAt_markVisited by lia.
        rewrite decide_False; [done|]. intros [-> ->].
        apply (Hxy 1); [lia|]. destruct (ahead_1 d s) as [-> ->]. done.
      * intros j Hj [Hx Hy]. destruct (Hsh j) as [Hx' Hy'].
        apply (Hxy (j + 1)); [lia|]. by rewrite <- Hx', <- Hy'.
    + apply (slid_rectangular _ _ _ _ HS).
    + rewrite (slid_entered _ _ _ _ HS). cbn [enterCell board].
      pose proof (count_markVisited entered _ _ _ _ Hcell) as Hc.
      cbn in Hc. lia.
    + rewrite (slid_playable _ _ _ _ HS). cbn [enterCell board].
      pose proof (count_markVisited playable _ _ _ _ Hcell) as Hc.
      cbn in Hc. lia.
    + destruct (Hsh (k + 1)) as [Hx Hy]. rewrite Hx, Hy in Hstop.
      by rewrite free_enterCell in Hstop; [|lia..|by apply Hoff; lia].
Qed.

(** ** A move, as a whole *)

Lemma lookupDirection_token d : lookupDirection (token d) = Own d.
Proof. by destruct d. Qed.

Lemma lookupDirection_Own direction d :
  lookupDirection direction = Own d → direction = token d.
Proof.
  unfold lookupDirection. repeat case_decide; intros [= <-]; done.
Qed.

(** On a started, unfinished game a move is the slide followed, when the
    player has moved, by [conclude] and one broadcast. *)
Lemma executeMove_active d s :
  rectangular s → started s = true → finished s = false →
  ∃ k s1, 0 ≤ k ∧ Slid d k s s1 ∧
          free s (aheadX d s (k + 1)) (aheadY d s (k + 1)) = false ∧
          executeMove (token d) s =
          if k =? 0 then Returns (MoveFailure NoMovement) s []
          else Returns (moveSuccess (conclude s1)) (conclude s1) [conclude s1].
Proof.
  intros Hrect Hs Hf.
  destruct (slide_path d s false Hrect) as (k & s1 & Hk & Hslide & HS & Hstop & H0).
  exists k, s1. split_and!; try done.
  unfold executeMove. rewrite Hs, Hf, lookupDirection_token, Hslide.
  cbn [negb orb]. destruct (Z.eqb_spec k 0) as [->|Hne].
  - cbn. by rewrite H0.
  - destruct (Z.ltb_spec 0 k); [|lia]. cbn [negb]. cbv zeta.
    pose proof (slid_rectangular _ _ _ _ HS) as Hrect1.
    pose proof (slid_started _ _ _ _ HS) as Hs1.
    pose proof (slid_finished _ _ _ _ HS) as Hf1.
    unfold conclude. destruct (visitedCount s1 =? totalCells s1).
    + rewrite someValidMove_finished by done. done.
    + rewrite someValidMove_active by congruence. done.
Qed.


(** ** The invariant *)

Lemma Inv_gameState0 : Inv gameState0.
Proof. by split. Qed.

Lemma Inv_loadLevel levels id s : Inv s → Inv (loadLevel levels id s).2.
Proof.
  intros HI. unfold loadLevel. destruct (levels !! id) as [level|]; [|done].
  cbn. split; cbn; try done.
  - apply parseBoard_rectangular.
  - by rewrite parseBoard_entered.
  - apply countPlayableCells_count.
Qed.

Lemma inBounds_ext s s' x y :
  width s' = width s → height s' = height s → inBounds s' x y = inBounds s x y.
Proof. unfold inBounds. by intros -> ->. Qed.

Lemma Inv_conclude d k s s1 :
  Inv s → started s = true → finished s = false → 0 < k →
  Slid d k s s1 → Inv (conclude s1).
Proof.
  intros HI Hs Hf Hk HS.
  assert (Inv s1) as HI1.
  { split.
    - apply (slid_rectangular _ _ _ _ HS).
    - rewrite (slid_visitedCount _ _ _ _ HS), (slid_entered _ _ _ _ HS).
      by rewrite (inv_visitedCount _ HI).
    - rewrite (slid_totalCells _ _ _ _ HS), (slid_playable _ _ _ _ HS).
      apply (inv_totalCells _ HI).
    - rewrite (slid_won _ _ _ _ HS). intros Hw.
      destruct (inv_won _ HI Hw) as [? _]. congruence.
    - by rewrite (slid_started _ _ _ _ HS).
    - rewrite (slid_started _ _ _ _ HS). congruence.
    - intros _. rewrite (slid_playerX _ _ _ _ HS), (slid_playerY _ _ _ _ HS).
      rewrite (inBounds_ext s s1)
        by (apply (slid_width _ _ _ _ HS) || apply (slid_height _ _ _ _ HS)).
      pose proof (slid_free _ _ _ _ HS k ltac:(lia)) as Hfree.
      unfold free in Hfree. by apply andb_prop in Hfree as [? _]. }
  assert (started s1 = true) as Hs1 by by rewrite (slid_started _ _ _ _ HS).
  unfold conclude. destruct (Z.eqb_spec (visitedCount s1) (totalCells s1)).
  - destruct HI1. by split.
  - case_match; [|done]. destruct HI1. by split.
Qed.

Lemma Inv_executeMove direction s :
  Inv s → Inv (stateAfter (executeMove direction s)).
Proof.
  intros HI. unfold executeMove.
  destruct (negb (started s) || finished s) eqn:Hact; [done|].
  apply orb_false_elim in Hact as [Hs%negb_false_iff Hf].
  destruct (lookupDirection direction) as [d| |] eqn:Hd; [|done..].
  apply lookupDirection_Own in Hd as ->.
  destruct (executeMove_active d s (inv_rectangular _ HI) Hs Hf)
    as (k & s1 & Hk & HS & _ & Hmove).
  unfold executeMove in Hmove.
  rewrite Hs, Hf, lookupDirection_token in Hmove. cbn [negb orb] in Hmove.
  rewrite Hmove. destruct (Z.eqb_spec k 0); [done|].
  cbn. apply (Inv_conclude d k s s1); [done..|lia|done].
Qed.

Lemma startGame_inBounds x y s :
  rectangular s → started s = false → inBounds s x y = true →
  ∃ cell, cellAt (board s) y x = Some cell ∧
          startGame x y s =
          if blocked cell then Returns (StartFailure BlockedCell) s []
          else Returns StartSuccess (placePlayer s x y) [placePlayer s x y].
Proof.
  intros Hrect Hs Hin. destruct (cellAt_inBounds _ _ _ Hrect Hin) as [cell Hcell].
  exists cell. split; [done|]. unfold startGame. by rewrite Hs, Hin, Hcell.
Qed.

Lemma count_none board : count (λ _, false) board = 0.
Proof.
  unfold count. generalize (concat board) as l.
  induction l as [|cell l IH]; [done|]. by rewrite filter_cons_False.
Qed.

(** While no cell counts as entered, a playable cell is unvisited. *)
Lemma fresh_unvisited board y x cell :
  count entered board = 0 → cellAt board y x = Some cell →
  blocked cell = false → visited cell = false.
Proof.
  intros Hcount Hcell Hb. destruct (visited cell) eqn:Hv; [|done].
  assert (entered cell = true) as He by (unfold entered; by rewrite Hb, Hv).
  pose proof (count_eq_all (λ _, false) entered board) as Hall.
  rewrite count_none, Hcount in Hall.
  by pose proof (Hall ltac:(done) eq_refl y x cell Hcell He).
Qed.

Lemma Inv_placePlayer x y s cell :
  Inv s → started s = false → inBounds s x y = true →
  cellAt (board s) y x = Some cell → blocked cell = false →
  Inv (placePlayer s x y).
Proof.
  intros HI Hs Hin Hcell Hb.
  destruct (inv_fresh _ HI Hs) as (Hvc & _ & _).
  rewrite (inv_visitedCount _ HI) in Hvc.
  pose proof (fresh_unvisited _ _ _ _ Hvc Hcell Hb) as Hv.
  split; cbn.
  - apply rectangular_markVisited, HI.
  - pose proof (count_markVisited entered _ _ _ _ Hcell) as Hc.
    assert (entered cell = false) as He
      by (unfold entered; by rewrite Hb, Hv).
    assert (entered {| blocked := blocked cell; visited := true |} = true) as He'
      by (unfold entered; cbn; by rewrite Hb).
    rewrite He, He' in Hc. cbn in Hc. lia.
  - pose proof (count_markVisited playable _ _ _ _ Hcell) as Hc.
    change (playable {| blocked := blocked cell; visited := true |})
      with (playable cell) in Hc.
    rewrite (inv_totalCells _ HI). lia.
  - intros Hw. destruct (inv_won _ HI Hw) as [Hf _].
    pose proof (inv_finished _ HI Hf). congruence.
  - done.
  - done.
  - done.
Qed.

Lemma Inv_startGame x y s : Inv s → Inv (stateAfter (startGame x y s)).
Proof.
  intros HI. destruct (started s) eqn:Hs; [unfold startGame; by rewrite Hs|].
  destruct (inBounds s x y) eqn:Hin; [|unfold startGame; by rewrite Hs, Hin].
  destruct (startGame_inBounds x y s (inv_rectangular _ HI) Hs Hin)
    as (cell & Hcell & ->).
  destruct (blocked cell) eqn:Hb; [done|]. cbn.
  by apply (Inv_placePlayer x y s cell).
Qed.

Lemma Inv_run levels op s : Inv s → Inv (run levels op s).
Proof.
  intros HI. destruct op as [id|x y|direction|]; cbn.
  - unfold postLevel. pose proof (Inv_loadLevel levels id s HI).
    destruct (loadLevel levels id s) as [[] s']; done.
  - by apply Inv_startGame.
  - by apply Inv_executeMove.
  - unfold resetLevel. pose proof (Inv_loadLevel levels (levelId s) s HI).
    destruct (loadLevel levels (levelId s) s) as [[] s']; done.
Qed.

Lemma Inv_runAll levels ops s : Inv s → Inv (runAll levels ops s).
Proof.
  revert s. induction ops as [|op ops IH]; intros s HI; [done|].
  cbn. by apply IH, Inv_run.
Qed.

Lemma reachable_Inv levels s : reachable levels s → Inv s.
Proof. intros [ops ->]. apply Inv_runAll, Inv_gameState0. Qed.

(** ** Moves that go nowhere *)

Lemma executeMove_blocked d s :
  rectangular s → started s = true → finished s = false →
  canStepTo d s = false →
  executeMove (token d) s = Returns (MoveFailure NoMovement) s [].
Proof.
  intros Hrect Hs Hf Hcan. unfold executeMove.
  rewrite Hs, Hf, lookupDirection_token, slide_pass, step_canStepTo, Hcan by done.
  done.
Qed.

(** Once every playable cell has been entered, no cell is free. *)
Lemma complete_no_step s x y :
  Inv s → visitedCount s = totalCells s → free s x y = false.
Proof.
  intros HI Hall. unfold free.
  destruct (inBounds s x y); [|done].
  destruct (cellAt (board s) y x) as [cell|] eqn:Hcell; [|done].
  destruct (blocked cell) eqn:Hb; [done|].
  rewrite (inv_visitedCount _ HI), (inv_totalCells _ HI) in Hall.
  assert (entered cell = true) as He.
  { apply (count_eq_all entered playable (board s)) with y x; try done.
    - unfold entered, playable. by intros c [? _]%andb_prop.
    - unfold playable. by rewrite Hb. }
  unfold entered in He. rewrite Hb in He. cbn in *. by rewrite He.
Qed.

Lemma visitedCount_conclude s : visitedCount (conclude s) = visitedCount s.
Proof. unfold conclude. by repeat case_match. Qed.

(** What a move leaves of a state that satisfies the invariant: the
    state itself, or the conclusion of a slide over [k > 0] cells. *)
Lemma executeMove_stateAfter direction s :
  rectangular s →
  stateAfter (executeMove direction s) = s ∨
  ∃ d k s1, direction = token d ∧ started s = true ∧ finished s = false ∧
            0 < k ∧ Slid d k s s1 ∧
            executeMove direction s =
              Returns (moveSuccess (conclude s1)) (conclude s1) [conclude s1].
Proof.
  intros Hrect. unfold executeMove at 1.
  destruct (negb (started s) || finished s) eqn:Hact; [by left|].
  apply orb_false_elim in Hact as [Hs%negb_false_iff Hf].
  destruct (lookupDirection direction) as [d| |] eqn:Hd; [|by left..].
  apply lookupDirection_Own in Hd as ->.
  destruct (executeMove_active d s Hrect Hs Hf) as (k & s1 & Hk & HS & _ & Hmove).
  pose proof Hmove as Hmove'. unfold executeMove in Hmove'.
  rewrite Hs, Hf, lookupDirection_token in Hmove'. cbn [negb orb] in Hmove'.
  rewrite Hmove'. destruct (Z.eqb_spec k 0) as [->|Hne]; [by left|].
  right. exists d, k, s1. split_and!; try done; lia.
Qed.

Lemma startGame_stateAfter x y s :
  stateAfter (startGame x y s) = s ∨
  started s = false ∧
  startGame x y s = Returns StartSuccess (placePlayer s x y) [placePlayer s x y].
Proof. unfold startGame. repeat case_match; auto. Qed.

Lemma Inv_loaded levels id level s :
  levels !! id = Some level → Inv (loadLevel levels id s).2.
Proof.
  intros Hlevel. unfold loadLevel. rewrite Hlevel.
  cbn. split; cbn; try done.
  - apply parseBoard_rectangular.
  - by rewrite parseBoard_entered.
  - apply countPlayableCells_count.
Qed.

(** ** A level with a single playable cell *)

Section SingleCell.

Variable levels : gmap Z Level.t.
Variable id : Z.
Variables s0 s : GameState.

Hypothesis Hload : loadLevel levels id s0 = (true, s).
Hypothesis Hone : totalCells s = 1.

Lemma single_reload t : loadLevel levels id t = (true, s).
Proof using Hload.
  revert Hload. unfold loadLevel.
  destruct (levels !! id) as [level|]; [|done]. intros [= Heq]. by rewrite Heq.
Qed.

Lemma single_loaded : onSingle id s.
Proof using Hload Hone.
  pose proof Hload as Hl. unfold loadLevel in Hl.
  destruct (levels !! id) as [level|] eqn:Hlevel; [|done].
  pose proof (Inv_loaded levels id level s0 Hlevel) as HI.
  rewrite Hload in HI. injection Hl as <-. by split_and!.
Qed.

Lemma single_no_step t d : onSingle id t → started t = true → canStepTo d t = false.
Proof.
  intros (HI & _ & Ht & _ & _ & Hvc) Hs.
  apply complete_no_step; [done|]. rewrite Hvc by done. done.
Qed.

Lemma single_move t direction :
  onSingle id t →
  stateAfter (executeMove direction t) = t ∧
  sentBy (executeMove direction t) = [].
Proof.
  intros Ht. pose proof Ht as (HI & _ & _ & Hf & _ & _).
  unfold executeMove. rewrite Hf, orb_false_r.
  destruct (started t) eqn:Hs; [|done]. cbn [negb].
  destruct (lookupDirection direction) as [d| |] eqn:Hd; [|done..].
  rewrite slide_pass, step_canStepTo, single_no_step; try done.
  apply HI.
Qed.

Lemma single_run t op :
  (∀ id', op = OpLoad id' → id' = id) → onSingle id t → onSingle id (run levels op t).
Proof using Hload Hone.
  intros Hop Ht. destruct op as [id'|x y|direction|]; cbn.
  - rewrite (Hop id' eq_refl). unfold postLevel. rewrite single_reload.
    apply single_loaded.
  - destruct (startGame_stateAfter x y t) as [->|[Hs Hstart]]; [done|].
    pose proof (Inv_startGame x y t) as HI. rewrite Hstart in *. cbn.
    destruct Ht as (HIt & ? & ? & ? & ? & _). split_and!; try done.
    by apply HI.
  - by destruct (single_move t direction Ht) as [-> _].
  - unfold resetLevel. destruct Ht as (_ & -> & _).
    rewrite single_reload. apply single_loaded.
Qed.

Lemma single_runAll ops t :
  (∀ id', OpLoad id' ∈ ops → id' = id) → onSingle id t →
  onSingle id (runAll levels ops t).
Proof using Hload Hone.
  revert t. induction ops as [|op ops IH]; intros t Hops Ht; [done|].
  cbn. apply IH.
  - intros id' Hin. apply Hops. by right.
  - apply single_run; [|done]. intros id' ->. apply Hops. by left.
Qed.

End SingleCell.

(** * The claims *)

(** ** The slide *)

(** C1. On a started, unfinished game a move in a cardinal direction [d]
    slides the player over the [k] cells ahead that are in bounds, not
    blocked and not visited, up to the first cell that is not: each of
    the [k] cells is entered (it becomes visited, the player stands on
    the last one, [visitedCount] grows by [k], no other cell changes),
    and cell [k + 1] is left alone. With [k = 0] the move fails with
    [NoMovement] on the unchanged state; otherwise it succeeds, and the
    state it leaves differs from the state after the slide in the flags
    [finished] and [won] at most. *)
Theorem executeMove_slides (d : Direction) (s : GameState) :
  rectangular s → started s = true → finished s = false →
  ∃ k s1,
    0 ≤ k ∧ Slid d k s s1 ∧
    free s (aheadX d s (k + 1)) (aheadY d s (k + 1)) = false ∧
    (k = 0 → executeMove (token d) s = Returns (MoveFailure NoMovement) s []) ∧
    (0 < k → ∃ s', executeMove (token d) s = Returns (moveSuccess s') s' [s'] ∧
                   board s' = board s1 ∧
                   playerX s' = aheadX d s k ∧ playerY s' = aheadY d s k ∧
                   visitedCount s' = visitedCount s + k).
Proof.
  intros Hrect Hs Hf.
  destruct (executeMove_active d s Hrect Hs Hf) as (k & s1 & Hk & HS & Hstop & Hmove).
  exists k, s1. split_and!; try done.
  - intros ->. by rewrite Hmove.
  - intros Hpos. exists (conclude s1).
    destruct (Z.eqb_spec k 0); [lia|]. split; [done|].
    rewrite <- (slid_playerX _ _ _ _ HS), <- (slid_playerY _ _ _ _ HS).
    rewrite <- (slid_visitedCount _ _ _ _ HS).
    unfold conclude. by repeat case_match.
Qed.

Lemma demoLeft_rectangular : rectangular demoLeft.
Proof. split; [reflexivity|]. vm_compute. repeat constructor. Defined.

Lemma executeMove_slides_witness :
  ∃ k s1,
    0 ≤ k ∧ Slid Right k demoLeft s1 ∧
    free demoLeft (aheadX Right demoLeft (k + 1))
                  (aheadY Right demoLeft (k + 1)) = false ∧
    (k = 0 → executeMove (token Right) demoLeft =
             Returns (MoveFailure NoMovement) demoLeft []) ∧
    (0 < k → ∃ s', executeMove (token Right) demoLeft =
                     Returns (moveSuccess s') s' [s'] ∧
                   board s' = board s1 ∧
                   playerX s' = aheadX Right demoLeft k ∧
                   playerY s' = aheadY Right demoLeft k ∧
                   visitedCount s' = visitedCount demoLeft + k).
Proof.
  apply (executeMove_slides Right demoLeft);
    [exact demoLeft_rectangular | reflexivity | reflexivity].
Defined.

(** C4. On a started, unfinished game a move in a cardinal direction
    whose first step is out of bounds, blocked or already visited fails
    with [NoMovement], leaves the whole state as it was and broadcasts
    nothing. *)
Theorem executeMove_no_movement (d : Direction) (s : GameState) :
  rectangular s → started s = true → finished s = false →
  inBounds s (playerX s + dx d) (playerY s + dy d) = false ∨
  (∃ cell, cellAt (board s) (playerY s + dy d) (playerX s + dx d) = Some cell ∧
           (blocked cell = true ∨ visited cell = true)) →
  executeMove (token d) s = Returns (MoveFailure NoMovement) s [].
Proof.
  intros Hrect Hs Hf Hfirst. apply executeMove_blocked; try done.
  unfold canStepTo, free. destruct Hfirst as [->|(cell & -> & Hcell)]; [done|].
  apply andb_false_intro2.
  destruct Hcell as [-> | ->]; [done|]. apply andb_false_r.
Qed.

Lemma executeMove_no_movement_witness :
  executeMove (token Left) demoLeft = Returns (MoveFailure NoMovement) demoLeft [].
Proof.
  apply (executeMove_no_movement Left demoLeft);
    [exact demoLeft_rectangular | reflexivity | reflexivity | left; reflexivity].
Defined.

(** ** Winning and getting stuck *)

(** A move that succeeds was made on a started, unfinished game in a
    cardinal direction, slid over at least one cell, and left the state
    [conclude] makes of the state after the slide. *)
Lemma executeMove_success direction s fin w px py vc tc s' sent :
  rectangular s →
  executeMove direction s = Returns (MoveSuccess fin w px py vc tc) s' sent →
  started s = true ∧ finished s = false ∧
  ∃ d k s1, direction = token d ∧ 0 < k ∧ Slid d k s s1 ∧
            s' = conclude s1 ∧ sent = [s'] ∧
            MoveSuccess fin w px py vc tc = moveSuccess s'.
Proof.
  intros Hrect Hmove.
  destruct (started s) eqn:Hs;
    [|unfold executeMove in Hmove; by rewrite Hs in Hmove].
  destruct (finished s) eqn:Hf;
    [unfold executeMove in Hmove; by rewrite Hs, Hf in Hmove|].
  split_and!; try done.
  destruct (lookupDirection direction) as [d| |] eqn:Hd;
    [|unfold executeMove in Hmove; by rewrite Hs, Hf, Hd in Hmove..].
  apply lookupDirection_Own in Hd as ->.
  destruct (executeMove_active d s Hrect Hs Hf) as (k & s1 & Hk & HS & _ & Heq).
  rewrite Heq in Hmove. destruct (Z.eqb_spec k 0); [done|].
  injection Hmove as <- <- <- <- <- <- <- <-.
  exists d, k, s1. split_and!; try done. lia.
Qed.

Lemma canStepTo_conclude d s : canStepTo d (conclude s) = canStepTo d s.
Proof. unfold conclude. by repeat case_match. Qed.

(** Neither a move nor a start changes a finished game. *)
Lemma finished_terminal levels s ops :
  started s = true → finished s = true →
  forallb keepsLevel ops = true → runAll levels ops s = s.
Proof.
  intros Hs Hf. induction ops as [|op ops IH]; [done|].
  cbn [forallb]. intros [Hop Hops]%andb_prop. cbn.
  replace (run levels op s) with s; [by apply IH|].
  destruct op; try done; cbn.
  - unfold startGame. by rewrite Hs.
  - unfold executeMove. by rewrite Hf, orb_true_r.
Qed.

(** C2. A successful move leaves [won = true] exactly when it leaves
    [visitedCount = totalCells], and [won] comes with [finished]. Once
    the game is won, every move fails, changes nothing and broadcasts
    nothing, and so does every run of moves and starts: only a load or a
    reset leaves the won state. *)
Theorem won_iff_complete (levels : gmap Z Level.t) (s : GameState) :
  reachable levels s →
  (∀ direction fin w px py vc tc s' sent,
     executeMove direction s = Returns (MoveSuccess fin w px py vc tc) s' sent →
     (won s' = true ↔ visitedCount s' = totalCells s') ∧
     (won s' = true → finished s' = true)) ∧
  (won s = true →
   (∀ direction,
      executeMove direction s = Returns (MoveFailure NotActive) s []) ∧
   (∀ ops, forallb keepsLevel ops = true → runAll levels ops s = s)).
Proof.
  intros HI%reachable_Inv. split.
  - intros direction fin w px py vc tc s' sent Hmove.
    destruct (executeMove_success _ _ _ _ _ _ _ _ _ _ (inv_rectangular _ HI) Hmove)
      as (Hs & Hf & d & k & s1 & -> & Hk & HS & -> & _ & _).
    assert (won s1 = false) as Hw1.
    { rewrite (slid_won _ _ _ _ HS). destruct (won s) eqn:Hw; [|done].
      destruct (inv_won _ HI Hw). congruence. }
    unfold conclude. destruct (Z.eqb_spec (visitedCount s1) (totalCells s1)).
    + done.
    + case_match; cbn; (split; [split; congruence | congruence]).
  - intros Hw. destruct (inv_won _ HI Hw) as [Hf _]. split.
    + intros direction. unfold executeMove. by rewrite Hf, orb_true_r.
    + intros ops. by apply finished_terminal; [apply (inv_finished _ HI)|].
Qed.

Lemma demoLeft_reachable : reachable demoLevels demoLeft.
Proof. exists [OpLoad 0; OpStart 0 0]. reflexivity. Defined.

Lemma won_iff_complete_witness :
  (∀ direction fin w px py vc tc s' sent,
     executeMove direction demoLeft =
       Returns (MoveSuccess fin w px py vc tc) s' sent →
     (won s' = true ↔ visitedCount s' = totalCells s') ∧
     (won s' = true → finished s' = true)) ∧
  (won demoLeft = true →
   (∀ direction,
      executeMove direction demoLeft =
        Returns (MoveFailure NotActive) demoLeft []) ∧
   (∀ ops, forallb keepsLevel ops = true →
           runAll demoLevels ops demoLeft = demoLeft)).
Proof. apply (won_iff_complete demoLevels demoLeft), demoLeft_reachable. Defined.

(** C3, as stated, fails on a winning move: the slide from the left end
    of level 0 to its right end leaves no direction in which the player
    can step, and the game is won, not stuck. *)
Lemma stuck_iff_no_step_counterexample :
  executeMove "right" demoLeft = Returns (moveSuccess demoWon) demoWon [demoWon] ∧
  ¬ (finished demoWon = true ∧ won demoWon = false ↔
     ∀ d, canStepTo d demoWon = false).
Proof.
  split; [reflexivity|]. intros [_ Hstuck].
  destruct Hstuck as [_ Hw]; [by intros []|]. discriminate Hw.
Qed.

(** C3, amended. A successful move leaves the game stuck ([finished]
    and not [won]) exactly when it leaves [visitedCount] different from
    [totalCells] and the player, where the move has put them, with no
    direction to step in. Once the game is stuck, every move fails,
    changes nothing and broadcasts nothing, and so does every run of
    moves and starts. *)
Theorem stuck_iff_incomplete_no_step (levels : gmap Z Level.t) (s : GameState) :
  reachable levels s →
  (∀ direction fin w px py vc tc s' sent,
     executeMove direction s = Returns (MoveSuccess fin w px py vc tc) s' sent →
     (finished s' = true ∧ won s' = false ↔
      visitedCount s' ≠ totalCells s' ∧ ∀ d, canStepTo d s' = false)) ∧
  (finished s = true → won s = false →
   (∀ direction,
      executeMove direction s = Returns (MoveFailure NotActive) s []) ∧
   (∀ ops, forallb keepsLevel ops = true → runAll levels ops s = s)).
Proof.
  intros HI%reachable_Inv. split.
  - intros direction fin w px py vc tc s' sent Hmove.
    destruct (executeMove_success _ _ _ _ _ _ _ _ _ _ (inv_rectangular _ HI) Hmove)
      as (Hs & Hf & d & k & s1 & -> & Hk & HS & -> & _ & _).
    assert (won s1 = false) as Hw1.
    { rewrite (slid_won _ _ _ _ HS). destruct (won s) eqn:Hw; [|done].
      destruct (inv_won _ HI Hw). congruence. }
    assert (finished s1 = false) as Hf1 by by rewrite (slid_finished _ _ _ _ HS).
    setoid_rewrite canStepTo_conclude.
    unfold conclude. destruct (Z.eqb_spec (visitedCount s1) (totalCells s1)).
    + cbn. split; [by intros [_ ?]|by intros [? _]].
    + rewrite Hw1, andb_true_r.
      destruct (canStepTo Up s1) eqn:HU; cbn;
        [split; [intros [? _]; congruence|intros [_ H]; specialize (H Up); congruence]|].
      destruct (canStepTo Down s1) eqn:HD; cbn;
        [split; [intros [? _]; congruence|intros [_ H]; specialize (H Down); congruence]|].
      destruct (canStepTo Left s1) eqn:HL; cbn;
        [split; [intros [? _]; congruence|intros [_ H]; specialize (H Left); congruence]|].
      destruct (canStepTo Right s1) eqn:HR; cbn;
        [split; [intros [? _]; congruence|intros [_ H]; specialize (H Right); congruence]|].
      split; [|done]. intros _. split; [done|]. by intros [].
  - intros Hf Hw. split.
    + intros direction. unfold executeMove. by rewrite Hf, orb_true_r.
    + intros ops. by apply finished_terminal; [apply (inv_finished _ HI)|].
Qed.

Lemma demoMiddle_reachable : reachable demoLevels demoMiddle.
Proof. exists [OpLoad 0; OpStart 1 0]. reflexivity. Defined.

Lemma stuck_iff_incomplete_no_step_witness :
  (∀ direction fin w px py vc tc s' sent,
     executeMove direction demoMiddle =
       Returns (MoveSuccess fin w px py vc tc) s' sent →
     (finished s' = true ∧ won s' = false ↔
      visitedCount s' ≠ totalCells s' ∧ ∀ d, canStepTo d s' = false)) ∧
  (finished demoMiddle = true → won demoMiddle = false →
   (∀ direction,
      executeMove direction demoMiddle =
        Returns (MoveFailure NotActive) demoMiddle []) ∧
   (∀ ops, forallb keepsLevel ops = true →
           runAll demoLevels ops demoMiddle = demoMiddle)).
Proof.
  apply (stuck_iff_incomplete_no_step demoLevels demoMiddle), demoMiddle_reachable.
Defined.

(** The move that strands the player on level 0. *)
Example executeMove_stuck :
  executeMove "right" demoMiddle =
    Returns (MoveSuccess true false 2 0 2 3) demoStuck [demoStuck].
Proof. reflexivity. Qed.

(** ** Tokens that are no direction *)

(** C5, as stated, fails on a game that has not started: the token is
    not looked at, and the failure is [NotActive]. *)
Lemma invalid_direction_counterexample :
  ("north"%string ∉ token <$> directions) ∧
  executeMove "north" gameState0 = Returns (MoveFailure NotActive) gameState0 [] ∧
  MoveFailure NotActive ≠ MoveFailure InvalidDirection.
Proof.
  split_and!; [|reflexivity|discriminate].
  apply (bool_decide_unpack _). vm_compute. exact I.
Qed.

(** C5, amended. On a started, unfinished game a token that is none of
    [up], [down], [left], [right], nor the name of a property the lookup
    table inherits, fails with [InvalidDirection], changes nothing and
    broadcasts nothing; on a game that has not started or has finished
    every token whatever, a direction or not, fails with [NotActive]. *)
Theorem executeMove_invalid_direction (direction : string) (s : GameState) :
  (started s = false ∨ finished s = true →
   executeMove direction s = Returns (MoveFailure NotActive) s []) ∧
  (started s = true → finished s = false →
   direction ∉ token <$> directions →
   direction ∉ objectPrototypeKeys →
   executeMove direction s = Returns (MoveFailure InvalidDirection) s []).
Proof.
  split.
  - intros Hoff. unfold executeMove.
    destruct Hoff as [-> | ->]; [done|by rewrite orb_true_r].
  - intros Hs Hf Hcard Hproto. unfold executeMove. rewrite Hs, Hf. cbn.
    unfold lookupDirection.
    cbn in Hcard. rewrite !elem_of_cons, elem_of_nil in Hcard.
    repeat case_decide; try done; exfalso; apply Hcard; tauto.
Qed.

Lemma executeMove_invalid_direction_witness :
  executeMove "north" demoLeft = Returns (MoveFailure InvalidDirection) demoLeft [] ∧
  executeMove "up" gameState0 = Returns (MoveFailure NotActive) gameState0 [] ∧
  executeMove "constructor" demoWon = Returns (MoveFailure NotActive) demoWon [].
Proof.
  split_and!.
  - apply (executeMove_invalid_direction "north" demoLeft);
      [reflexivity | reflexivity | |];
      apply (bool_decide_unpack _); vm_compute; exact I.
  - apply (executeMove_invalid_direction "up" gameState0). left. reflexivity.
  - apply (executeMove_invalid_direction "constructor" demoWon). right. reflexivity.
Defined.

(** The blocked middle cell of level 1 stops the player at once. *)
Example executeMove_walled :
  executeMove "right" demoWalled = Returns (MoveFailure NoMovement) demoWalled [].
Proof. reflexivity. Qed.

(** The slide across level 0 wins it. *)
Example executeMove_won :
  executeMove "right" demoLeft =
    Returns (MoveSuccess true true 2 0 3 3) demoWon [demoWon].
Proof. reflexivity. Qed.

(** A token the lookup table inherits from [Object.prototype] is taken
    for a direction, and the first pass of the slide raises. *)
Example executeMove_constructor :
  executeMove "constructor" demoLeft = Throws demoLeft.
Proof. reflexivity. Qed.

(** ** Starting *)

(** C6. [startGame(x, y)] fails with [AlreadyStarted] on a started game,
    whether finished or not; otherwise with [OutOfBounds] when [(x, y)]
    is outside [[0, width) x [0, height)]; otherwise with [BlockedCell]
    when the cell is blocked; and otherwise succeeds: the player stands
    on [(x, y)], the game is started, the cell is visited,
    [visitedCount] is 1 whatever it was, and nothing else has changed.
    A failure leaves the state as it was and broadcasts nothing. *)
Theorem startGame_checks (x y : Z) (s : GameState) :
  rectangular s →
  (started s = true →
   startGame x y s = Returns (StartFailure AlreadyStarted) s []) ∧
  (started s = false → ¬ (0 ≤ x < width s ∧ 0 ≤ y < height s) →
   startGame x y s = Returns (StartFailure OutOfBounds) s []) ∧
  (started s = false → 0 ≤ x < width s → 0 ≤ y < height s →
   ∃ cell,
     cellAt (board s) y x = Some cell ∧
     (blocked cell = true →
      startGame x y s = Returns (StartFailure BlockedCell) s []) ∧
     (blocked cell = false →
      ∃ s', startGame x y s = Returns StartSuccess s' [s'] ∧
            playerX s' = x ∧ playerY s' = y ∧ started s' = true ∧
            visitedCount s' = 1 ∧
            cellAt (board s') y x = Some {| blocked := false; visited := true |} ∧
            (∀ y' x', ¬ (y' = y ∧ x' = x) →
                      cellAt (board s') y' x' = cellAt (board s) y' x') ∧
            levelId s' = levelId s ∧ width s' = width s ∧ height s' = height s ∧
            finished s' = finished s ∧ won s' = won s ∧
            totalCells s' = totalCells s)) ∧
  (∀ f s' sent,
     startGame x y s = Returns (StartFailure f) s' sent → s' = s ∧ sent = []).
Proof.
  intros Hrect. split_and!.
  - intros Hs. unfold startGame. by rewrite Hs.
  - intros Hs Hout. unfold startGame. rewrite Hs.
    destruct (inBounds s x y) eqn:Hin; [|done].
    apply inBounds_spec in Hin. tauto.
  - intros Hs Hx Hy.
    assert (inBounds s x y = true) as Hin by by apply inBounds_spec.
    destruct (startGame_inBounds x y s Hrect Hs Hin) as (cell & Hcell & ->).
    exists cell. split_and!; [done|by intros ->|]. intros Hb. rewrite Hb.
    exists (placePlayer s x y). split_and!; try done; cbn.
    + rewrite cellAt_markVisited, decide_True, Hcell by (done || lia).
      cbn. by rewrite Hb.
    + intros y' x' Hne. by rewrite cellAt_markVisited, decide_False by (done || lia).
  - intros f s' sent. unfold startGame.
    repeat case_match; intros [= <- <- <-] || intros [=]; done.
Qed.

Lemma demoFresh_rectangular : rectangular demoFresh.
Proof. split; [reflexivity|]. vm_compute. repeat constructor. Defined.

Lemma startGame_checks_witness :
  ∃ s', startGame 1 0 demoFresh = Returns StartSuccess s' [s'] ∧
        playerX s' = 1 ∧ playerY s' = 0 ∧ started s' = true ∧
        visitedCount s' = 1.
Proof.
  destruct (startGame_checks 1 0 demoFresh demoFresh_rectangular)
    as (_ & _ & Hin & _).
  destruct (Hin eq_refl) as (cell & Hcell & _ & Hopen);
    [vm_compute; split; [discriminate|reflexivity]..|].
  injection Hcell as <-.
  destruct (Hopen eq_refl) as (s' & Hstart & HX & HY & Hs & Hvc & _).
  exists s'. by split_and!.
Defined.

(** ** Loading *)

(** C7. [loadLevel(id)] on an identifier the catalogue does not have
    returns [false] and leaves the state as it was (and the request
    handler broadcasts nothing). On an identifier it has, it returns
    [true] and leaves a state that owes nothing to the state before: the
    level's identifier and dimensions, a board of [height] rows of
    [width] cells where the cell at [(x, y)] is blocked and visited if
    character [y * width + x] of the level is ['X'] and open and
    unvisited if not, no player, no flag set, [visitedCount = 0] and
    [totalCells] the number of cells that are not blocked. *)
Theorem loadLevel_replaces (levels : gmap Z Level.t) (id : Z) (s : GameState) :
  match levels !! id with
  | None =>
      loadLevel levels id s = (false, s) ∧
      postLevel levels id s = Returns false s []
  | Some level =>
      ∃ s', (∀ s0, loadLevel levels id s0 = (true, s')) ∧
            levelId s' = id ∧
            width s' = Level.width level ∧ height s' = Level.height level ∧
            rectangular s' ∧
            (∀ x y, 0 ≤ x < Level.width level → 0 ≤ y < Level.height level →
                    cellAt (board s') y x =
                    Some (if decide (charAt (Level.boardStr level)
                                            (y * Level.width level + x)
                                     = Some "X"%char)
                          then {| blocked := true; visited := true |}
                          else {| blocked := false; visited := false |})) ∧
            playerX s' = -1 ∧ playerY s' = -1 ∧
            started s' = false ∧ finished s' = false ∧ won s' = false ∧
            visitedCount s' = 0 ∧
            totalCells s' = count playable (board s')
  end.
Proof.
  destruct (levels !! id) as [level|] eqn:Hlevel.
  - eexists. split_and!.
    + intros s0. unfold loadLevel. rewrite Hlevel. reflexivity.
    + done.
    + done.
    + done.
    + apply parseBoard_rectangular.
    + intros x y Hx Hy. cbn. rewrite parseBoard_cellAt, decide_True by done.
      f_equal. unfold cellOf, isX.
      destruct (charAt _ _) as [c|]; [|by rewrite decide_False].
      destruct (decide (c = "X"%char)) as [->|Hne];
        [by rewrite decide_True|rewrite decide_False; congruence].
    + done.
    + done.
    + done.
    + done.
    + done.
    + done.
    + apply countPlayableCells_count.
  - unfold postLevel, loadLevel. by rewrite Hlevel.
Qed.

(** Level 1 of the small catalogue, loaded. *)
Example loadLevel_walled :
  loadLevel demoLevels 1 demoWon =
  (true,
   {| levelId := 1; width := 3; height := 1;
      board := [[ {| blocked := false; visited := false |};
                  {| blocked := true; visited := true |};
                  {| blocked := false; visited := false |} ]];
      playerX := -1; playerY := -1;
      started := false; finished := false; won := false;
      visitedCount := 0; totalCells := 2 |}).
Proof. reflexivity. Qed.

(** ** Resetting *)

(** C9. When the catalogue has the current level, a reset leaves that
    level freshly loaded (same identifier, the level's dimensions, every
    cell visited exactly when it is blocked, no player, no flag set,
    [visitedCount = 0]), and a second reset right after the first leaves
    and broadcasts the very same state. *)
Theorem resetLevel_idempotent (levels : gmap Z Level.t) (s : GameState) (level : Level.t) :
  levels !! levelId s = Some level →
  ∃ s1, resetLevel levels s = Returns tt s1 [s1] ∧
        resetLevel levels s1 = Returns tt s1 [s1] ∧
        levelId s1 = levelId s ∧
        width s1 = Level.width level ∧ height s1 = Level.height level ∧
        (∀ y x cell, cellAt (board s1) y x = Some cell →
                     visited cell = blocked cell) ∧
        playerX s1 = -1 ∧ playerY s1 = -1 ∧
        started s1 = false ∧ finished s1 = false ∧ won s1 = false ∧
        visitedCount s1 = 0.
Proof.
  intros Hlevel. eexists. split_and!.
  - unfold resetLevel, loadLevel. rewrite Hlevel. reflexivity.
  - unfold resetLevel, loadLevel. cbn [levelId]. rewrite Hlevel. reflexivity.
  - done.
  - done.
  - done.
  - intros y x cell. cbn [board]. rewrite parseBoard_cellAt.
    case_decide; [|done]. by intros [= <-].
  - done.
  - done.
  - done.
  - done.
  - done.
  - done.
Qed.

Lemma resetLevel_idempotent_witness :
  ∃ s1, resetLevel demoLevels demoWon = Returns tt s1 [s1] ∧
        resetLevel demoLevels s1 = Returns tt s1 [s1] ∧
        levelId s1 = levelId demoWon ∧
        width s1 = 3 ∧ height s1 = 1 ∧
        (∀ y x cell, cellAt (board s1) y x = Some cell →
                     visited cell = blocked cell) ∧
        playerX s1 = -1 ∧ playerY s1 = -1 ∧
        started s1 = false ∧ finished s1 = false ∧ won s1 = false ∧
        visitedCount s1 = 0.
Proof.
  apply (resetLevel_idempotent demoLevels demoWon (Level.Build 3 1 "...")).
  reflexivity.
Defined.

(** ** The visited count *)

(** C8. On a state the server can be in, a successful start and a
    successful move each leave [visitedCount] strictly larger than it
    was and equal to the number of cells of the board that are visited
    and not blocked, the start cell being one of them; and no start or
    move, successful or not, leaves [visitedCount] smaller than it
    was. *)
Theorem visitedCount_grows (levels : gmap Z Level.t) (s : GameState) :
  reachable levels s →
  (∀ x y s' sent,
     startGame x y s = Returns StartSuccess s' sent →
     visitedCount s < visitedCount s' ∧
     visitedCount s' = count entered (board s') ∧
     cellAt (board s') y x = Some {| blocked := false; visited := true |}) ∧
  (∀ direction fin w px py vc tc s' sent,
     executeMove direction s = Returns (MoveSuccess fin w px py vc tc) s' sent →
     visitedCount s < visitedCount s' ∧
     visitedCount s' = count entered (board s')) ∧
  (∀ op, keepsLevel op = true → visitedCount s ≤ visitedCount (run levels op s)).
Proof.
  intros HI%reachable_Inv.
  assert (∀ x y s' sent,
            startGame x y s = Returns StartSuccess s' sent →
            visitedCount s < visitedCount s' ∧
            visitedCount s' = count entered (board s') ∧
            cellAt (board s') y x = Some {| blocked := false; visited := true |})
    as Hstart.
  { intros x y s' sent Hstart.
    pose proof (Inv_startGame x y s HI) as HI'. rewrite Hstart in HI'. cbn in HI'.
    unfold startGame in Hstart.
    destruct (started s) eqn:Hs; [done|].
    destruct (inBounds s x y) eqn:Hin; [|done]. cbn in Hstart.
    destruct (cellAt (board s) y x) as [cell|] eqn:Hcell; [|done].
    destruct (blocked cell) eqn:Hb; [done|]. injection Hstart as <- _.
    destruct (inv_fresh _ HI Hs) as (-> & _ & _).
    split_and!; [done|apply (inv_visitedCount _ HI')|].
    apply inBounds_spec in Hin. cbn.
    rewrite cellAt_markVisited, decide_True, Hcell by (done || lia).
    cbn. by rewrite Hb. }
  assert (∀ direction fin w px py vc tc s' sent,
            executeMove direction s = Returns (MoveSuccess fin w px py vc tc) s' sent →
            visitedCount s < visitedCount s' ∧
            visitedCount s' = count entered (board s')) as Hmove.
  { intros direction fin w px py vc tc s' sent Hmove.
    pose proof (Inv_executeMove direction s HI) as HI'.
    rewrite Hmove in HI'. cbn in HI'.
    destruct (executeMove_success _ _ _ _ _ _ _ _ _ _ (inv_rectangular _ HI) Hmove)
      as (_ & _ & d & k & s1 & _ & Hk & HS & -> & _ & _).
    split; [|apply (inv_visitedCount _ HI')].
    rewrite visitedCount_conclude, (slid_visitedCount _ _ _ _ HS). lia. }
  split_and!; [done..|].
  intros [id|x y|direction|]; try done; intros _; cbn.
  - destruct (startGame_stateAfter x y s) as [->|[_ Hstart']]; [done|].
    destruct (Hstart x y _ _ Hstart') as [? _]. rewrite Hstart'. cbn in *. lia.
  - destruct (executeMove_stateAfter direction s (inv_rectangular _ HI))
      as [->|(d & k & s1 & _ & _ & _ & Hk & HS & ->)]; [done|].
    cbn. rewrite visitedCount_conclude, (slid_visitedCount _ _ _ _ HS). lia.
Qed.

Lemma visitedCount_grows_witness :
  (∀ x y s' sent,
     startGame x y demoLeft = Returns StartSuccess s' sent →
     visitedCount demoLeft < visitedCount s' ∧
     visitedCount s' = count entered (board s') ∧
     cellAt (board s') y x = Some {| blocked := false; visited := true |}) ∧
  (∀ direction fin w px py vc tc s' sent,
     executeMove direction demoLeft =
       Returns (MoveSuccess fin w px py vc tc) s' sent →
     visitedCount demoLeft < visitedCount s' ∧
     visitedCount s' = count entered (board s')) ∧
  (∀ op, keepsLevel op = true →
         visitedCount demoLeft ≤ visitedCount (run demoLevels op demoLeft)).
Proof.
  apply (visitedCount_grows demoLevels demoLeft).
  exists [OpLoad 0; OpStart 0 0]. reflexivity.
Defined.

(** ** Winning a level of one cell *)

(** C10. On a freshly loaded level with [totalCells = 1], a successful
    start leaves [visitedCount = 1 = totalCells] with [finished] and
    [won] both unset; from there a move in any of the four directions
    fails with [NoMovement], and a move with any token at all leaves the
    state as it was and broadcasts nothing. Whatever starts, moves,
    resets and reloads of the level follow the load, [won] stays
    unset. *)
Theorem single_cell_never_won
    (levels : gmap Z Level.t) (id : Z) (s0 s : GameState) :
  loadLevel levels id s0 = (true, s) → totalCells s = 1 →
  (∀ x y s1 sent,
     startGame x y s = Returns StartSuccess s1 sent →
     visitedCount s1 = 1 ∧ visitedCount s1 = totalCells s1 ∧
     finished s1 = false ∧ won s1 = false ∧
     (∀ d, executeMove (token d) s1 = Returns (MoveFailure NoMovement) s1 []) ∧
     (∀ direction, stateAfter (executeMove direction s1) = s1 ∧
                   sentBy (executeMove direction s1) = [])) ∧
  (∀ ops, (∀ id', OpLoad id' ∈ ops → id' = id) →
          won (runAll levels ops s) = false).
Proof.
  intros Hload Hone. split.
  - intros x y s1 sent Hstart.
    pose proof (single_run levels id s0 s Hload Hone s (OpStart x y)
                  ltac:(done) (single_loaded levels id s0 s Hload Hone)) as H1.
    cbn in H1. rewrite Hstart in H1. cbn in H1.
    destruct (startGame_stateAfter x y s) as [Hsame|[_ Hstart']].
    { rewrite Hstart in Hsame. cbn in Hsame. subst s1.
      unfold startGame in Hstart. repeat case_match; try done.
      destruct (single_loaded levels id s0 s Hload Hone) as (HI & _).
      injection Hstart as Heq _. rewrite <- Heq in H. discriminate H. }
    rewrite Hstart' in Hstart. injection Hstart as <- _.
    pose proof H1 as (HI & _ & Ht & Hf & Hw & Hvc).
    split_and!; try done.
    + intros d. apply executeMove_blocked; try done; [apply HI|].
      by apply (single_no_step id).
    + intros direction. by apply (single_move id).
  - intros ops Hops.
    by destruct (single_runAll levels id s0 s Hload Hone ops s Hops
                   (single_loaded levels id s0 s Hload Hone))
      as (_ & _ & _ & _ & ? & _).
Qed.

Lemma single_cell_never_won_witness :
  (∀ x y s1 sent,
     startGame x y demoSingle = Returns StartSuccess s1 sent →
     visitedCount s1 = 1 ∧ visitedCount s1 = totalCells s1 ∧
     finished s1 = false ∧ won s1 = false ∧
     (∀ d, executeMove (token d) s1 = Returns (MoveFailure NoMovement) s1 []) ∧
     (∀ direction, stateAfter (executeMove direction s1) = s1 ∧
                   sentBy (executeMove direction s1) = [])) ∧
  (∀ ops, (∀ id', OpLoad id' ∈ ops → id' = 2) →
          won (runAll demoLevels ops demoSingle) = false).
Proof.
  apply (single_cell_never_won demoLevels 2 gameState0 demoSingle);
    reflexivity.
Defined.

(** The start on the only open cell of level 2. *)
Example startGame_single :
  startGame 1 0 demoSingle = Returns StartSuccess demoSingleStarted [demoSingleStarted] ∧
  visitedCount demoSingleStarted = totalCells demoSingleStarted ∧
  won demoSingleStarted = false.
Proof. by split_and!. Qed.

(** * Further properties *)

(** ** What the cells tell about the state *)

Lemma onPath_dec d k s x y :
  (∃ i, 1 ≤ i ≤ k ∧ x = aheadX d s i ∧ y = aheadY d s i) ∨
  (∀ i, 1 ≤ i ≤ k → ¬ (x = aheadX d s i ∧ y = aheadY d s i)).
Proof.
  set (i0 := (x - playerX s) * dx d + (y - playerY s) * dy d).
  destruct (decide (1 ≤ i0 ≤ k ∧ x = aheadX d s i0 ∧ y = aheadY d s i0))
    as [Hon|Hoff]; [left; by exists i0|right].
  intros i Hi [Hx Hy]. apply Hoff.
  assert (i0 = i) as -> by (unfold i0, aheadX, aheadY in *; destruct d; cbn in *; lia).
  done.
Qed.

Lemma cellAt_nil y x : cellAt [] y x = None.
Proof. unfold cellAt. by case_match. Qed.

Lemma Coherent_gameState0 : Coherent gameState0.
Proof. split; cbn; try done; intros; by rewrite cellAt_nil in *. Qed.

Lemma Coherent_loaded levels id level s :
  levels !! id = Some level → Coherent (loadLevel levels id s).2.
Proof.
  intros Hlevel. unfold loadLevel. rewrite Hlevel. cbn.
  split; cbn; try done.
  - intros y x cell. rewrite parseBoard_cellAt. case_decide; [|done].
    by intros [= <-].
  - intros _ y x cell. rewrite parseBoard_cellAt. case_decide; [|done].
    by intros [= <-].
Qed.

Lemma Coherent_loadLevel levels id s :
  Coherent s → Coherent (loadLevel levels id s).2.
Proof.
  intros HC. destruct (levels !! id) as [level|] eqn:Hlevel.
  - by apply (Coherent_loaded levels id level).
  - unfold loadLevel. by rewrite Hlevel.
Qed.

Lemma Coherent_placePlayer x y s cell :
  Inv s → Coherent s → started s = false → inBounds s x y = true →
  cellAt (board s) y x = Some cell → blocked cell = false →
  Coherent (placePlayer s x y).
Proof.
  intros HI HC Hs [Hx Hy]%inBounds_spec Hcell Hb. split; cbn.
  - intros y' x' cell'. rewrite cellAt_markVisited by lia. case_decide.
    + rewrite Hcell. by intros [= <-].
    + apply (coh_blocked _ HC).
  - done.
  - intros _. rewrite cellAt_markVisited, decide_True, Hcell by (done || lia).
    cbn. by rewrite Hb.
  - intros Hf. pose proof (inv_finished _ HI Hf). congruence.
Qed.

Lemma Coherent_startGame x y s :
  Inv s → Coherent s → Coherent (stateAfter (startGame x y s)).
Proof.
  intros HI HC. destruct (started s) eqn:Hs; [unfold startGame; by rewrite Hs|].
  destruct (inBounds s x y) eqn:Hin; [|unfold startGame; by rewrite Hs, Hin].
  destruct (startGame_inBounds x y s (inv_rectangular _ HI) Hs Hin)
    as (cell & Hcell & ->).
  destruct (blocked cell) eqn:Hb; [done|]. cbn.
  by apply (Coherent_placePlayer x y s cell).
Qed.

Lemma Coherent_conclude d k s s1 :
  Coherent s → started s = true → finished s = false → 0 < k →
  Slid d k s s1 → Coherent (conclude s1).
Proof.
  intros HC Hs Hf Hk HS.
  assert (board (conclude s1) = board s1 ∧ playerX (conclude s1) = playerX s1 ∧
          playerY (conclude s1) = playerY s1 ∧
          started (conclude s1) = started s1) as (Hb & Hpx & Hpy & Hst)
    by (unfold conclude; by repeat case_match).
  split.
  - rewrite Hb. intros y x cell Hcell Hblocked.
    destruct (onPath_dec d k s x y) as [(i & Hi & -> & ->)|Hoff].
    + rewrite (slid_path _ _ _ _ HS i Hi) in Hcell. by injection Hcell as <-.
    + rewrite (slid_rest _ _ _ _ HS x y Hoff) in Hcell.
      by apply (coh_blocked _ HC y x).
  - rewrite Hst, (slid_started _ _ _ _ HS). congruence.
  - intros _. rewrite Hb, Hpx, Hpy.
    rewrite (slid_playerX _ _ _ _ HS), (slid_playerY _ _ _ _ HS).
    apply (slid_path _ _ _ _ HS). lia.
  - pose proof (slid_finished _ _ _ _ HS) as Hf1. rewrite Hf in Hf1.
    unfold conclude. destruct (Z.eqb_spec (visitedCount s1) (totalCells s1)).
    + done.
    + case_match eqn:Hnone; [|congruence]. intros _ _. split; [done|].
      apply andb_prop in Hnone as [Hnone%negb_true_iff _].
      repeat apply orb_false_elim in Hnone as [Hnone ?].
      by intros [].
Qed.

Lemma Coherent_executeMove direction s :
  Inv s → Coherent s → Coherent (stateAfter (executeMove direction s)).
Proof.
  intros HI HC.
  destruct (executeMove_stateAfter direction s (inv_rectangular _ HI))
    as [->|(d & k & s1 & _ & Hs & Hf & Hk & HS & ->)]; [done|].
  by apply (Coherent_conclude d k s s1).
Qed.

Lemma Coherent_run levels op s :
  Inv s → Coherent s → Coherent (run levels op s).
Proof.
  intros HI HC. destruct op as [id|x y|direction|]; cbn.
  - unfold postLevel. pose proof (Coherent_loadLevel levels id s HC).
    destruct (loadLevel levels id s) as [[] s']; done.
  - by apply Coherent_startGame.
  - by apply Coherent_executeMove.
  - unfold resetLevel. pose proof (Coherent_loadLevel levels (levelId s) s HC).
    destruct (loadLevel levels (levelId s) s) as [[] s']; done.
Qed.

Lemma reachable_Coherent levels s : reachable levels s → Coherent s.
Proof.
  intros [ops ->].
  enough (∀ s, Inv s → Coherent s → Coherent (runAll levels ops s)) as H
    by (apply H; [apply Inv_gameState0|apply Coherent_gameState0]).
  induction ops as [|op ops IH]; intros s HI HC; [done|].
  cbn. apply IH; [by apply Inv_run|by apply Coherent_run].
Qed.

(** ** More on counting *)

Lemma elem_concat_cellAt (board : list (list Cell)) cell :
  cell ∈ concat board → ∃ y x, cellAt board y x = Some cell.
Proof.
  intros (row & Hrow & Hcell)%list_elem_of_In%in_concat.
  apply list_elem_of_In, list_elem_of_lookup_1 in Hrow as [i Hi].
  apply list_elem_of_In, list_elem_of_lookup_1 in Hcell as [j Hj].
  exists (Z.of_nat i), (Z.of_nat j). apply cellAt_Some.
  split_and!; [lia..|]. exists row. by rewrite !Nat2Z.id.
Qed.

Lemma count_le (p q : Cell → bool) board :
  (∀ cell, p cell = true → q cell = true) → count p board ≤ count q board.
Proof.
  intros Hpq. unfold count. apply inj_le.
  generalize (concat board) as l.
  induction l as [|c l IH]; [done|]. rewrite !filter_cons.
  repeat case_decide; cbn; try lia. exfalso; auto.
Qed.

Lemma count_ext (p q : Cell → bool) board :
  (∀ y x cell, cellAt board y x = Some cell → p cell = q cell) →
  count p board = count q board.
Proof.
  intros Hpq.
  assert (∀ cell, cell ∈ concat board → p cell = q cell) as Hin.
  { intros cell (y & x & Hcell)%elem_concat_cellAt. eauto. }
  unfold count. f_equal. revert Hin. generalize (concat board) as l.
  induction l as [|c l IH]; intros Hin; [done|]. rewrite !filter_cons.
  rewrite (Hin c) by by left.
  case_decide; cbn; rewrite IH; try done; intros; apply Hin; by right.
Qed.

Lemma visitedCount_bounds s : Inv s → 0 ≤ visitedCount s ≤ totalCells s.
Proof.
  intros HI. rewrite (inv_visitedCount _ HI), (inv_totalCells _ HI).
  split; [apply count_nonneg|].
  apply count_le. unfold entered, playable. by intros c [? _]%andb_prop.
Qed.

Lemma complete_iff_all_visited s :
  Inv s → Coherent s →
  visitedCount s = totalCells s ↔
  ∀ y x cell, cellAt (board s) y x = Some cell → visited cell = true.
Proof.
  intros HI HC. rewrite (inv_visitedCount _ HI), (inv_totalCells _ HI). split.
  - intros Hall y x cell Hcell. destruct (blocked cell) eqn:Hb.
    + by apply (coh_blocked _ HC y x).
    + assert (entered cell = true) as He.
      { apply (count_eq_all entered playable (board s)) with y x; try done.
        - unfold entered, playable. by intros c [? _]%andb_prop.
        - unfold playable. by rewrite Hb. }
      unfold entered in He. by apply andb_prop in He as [_ ?].
  - intros Hall. apply count_ext. intros y x cell Hcell.
    unfold entered, playable. rewrite (Hall y x cell Hcell). apply andb_true_r.
Qed.

(** ** The states the server can be in *)

(** X1. In every state the server can be in, the board has a cell at
    [(x, y)] exactly when [(x, y)] passes the bounds test: no read of
    [board[y][x]] behind that test can fail, and there is no cell
    outside it. *)
Theorem reachable_board_shape (levels : gmap Z Level.t) (s : GameState) (x y : Z) :
  reachable levels s →
  is_Some (cellAt (board s) y x) ↔ inBounds s x y = true.
Proof.
  intros HI%reachable_Inv. pose proof (inv_rectangular _ HI) as Hrect.
  split; [|by apply cellAt_inBounds].
  intros [cell (Hy & Hx & row & Hrow & Hcell)%cellAt_Some].
  destruct Hrect as [Hh Hw].
  pose proof (lookup_lt_Some _ _ _ Hrow) as Hlty.
  pose proof (lookup_lt_Some _ _ _ Hcell) as Hltx.
  eapply Forall_lookup_1 in Hw; [|done]. cbn in Hw.
  apply inBounds_spec. lia.
Qed.

Lemma reachable_board_shape_witness :
  is_Some (cellAt (board demoLeft) 0 2) ↔ inBounds demoLeft 2 0 = true.
Proof.
  apply (reachable_board_shape demoLevels demoLeft 2 0).
  exists [OpLoad 0; OpStart 0 0]. reflexivity.
Defined.

(** X2. In every state the server can be in, [totalCells] is the number
    of cells that are not blocked, [visitedCount] is the number of
    visited cells that are not blocked, and
    [0 <= visitedCount <= totalCells]. *)
Theorem reachable_counters (levels : gmap Z Level.t) (s : GameState) :
  reachable levels s →
  totalCells s = count playable (board s) ∧
  visitedCount s = count entered (board s) ∧
  0 ≤ visitedCount s ≤ totalCells s.
Proof.
  intros HI%reachable_Inv. split_and!.
  - apply (inv_totalCells _ HI).
  - apply (inv_visitedCount _ HI).
  - by apply visitedCount_bounds.
  - by apply visitedCount_bounds.
Qed.

Lemma reachable_counters_witness :
  totalCells demoStuck = count playable (board demoStuck) ∧
  visitedCount demoStuck = count entered (board demoStuck) ∧
  0 ≤ visitedCount demoStuck ≤ totalCells demoStuck.
Proof.
  apply (reachable_counters demoLevels demoStuck).
  exists [OpLoad 0; OpStart 1 0; OpMove "right"]. reflexivity.
Defined.

(** X3. In every state the server can be in: once the game is started
    the player is inside the grid, on an open cell that is visited;
    before that the player is at [(-1, -1)], [visitedCount] is 0 and
    the visited cells are exactly the blocked ones. *)
Theorem reachable_player (levels : gmap Z Level.t) (s : GameState) :
  reachable levels s →
  (started s = true →
   0 ≤ playerX s < width s ∧ 0 ≤ playerY s < height s ∧
   cellAt (board s) (playerY s) (playerX s) =
     Some {| blocked := false; visited := true |}) ∧
  (started s = false →
   playerX s = -1 ∧ playerY s = -1 ∧ visitedCount s = 0 ∧
   ∀ y x cell, cellAt (board s) y x = Some cell → visited cell = blocked cell).
Proof.
  intros Hreach. pose proof (reachable_Inv _ _ Hreach) as HI.
  pose proof (reachable_Coherent _ _ Hreach) as HC. split.
  - intros Hs. pose proof (inv_player _ HI Hs) as [? ?]%inBounds_spec.
    split; [lia|split; [lia|by apply (coh_player _ HC)]].
  - intros Hs. destruct (inv_fresh _ HI Hs) as (? & ? & ?).
    split_and!; try done. by apply (coh_fresh _ HC).
Qed.

Lemma reachable_player_witness :
  (started demoWon = true →
   0 ≤ playerX demoWon < width demoWon ∧ 0 ≤ playerY demoWon < height demoWon ∧
   cellAt (board demoWon) (playerY demoWon) (playerX demoWon) =
     Some {| blocked := false; visited := true |}) ∧
  (started demoWon = false →
   playerX demoWon = -1 ∧ playerY demoWon = -1 ∧ visitedCount demoWon = 0 ∧
   ∀ y x cell, cellAt (board demoWon) y x = Some cell →
               visited cell = blocked cell).
Proof.
  apply (reachable_player demoLevels demoWon).
  exists [OpLoad 0; OpStart 0 0; OpMove "right"]. reflexivity.
Defined.

(** X4. In every state the server can be in: [won] implies [finished]
    and [visitedCount = totalCells]; [finished] implies [started]; and a
    finished game that is not won is incomplete and has no direction in
    which the player can step. *)
Theorem reachable_flags (levels : gmap Z Level.t) (s : GameState) :
  reachable levels s →
  (won s = true → finished s = true ∧ visitedCount s = totalCells s) ∧
  (finished s = true → started s = true) ∧
  (finished s = true → won s = false →
   visitedCount s < totalCells s ∧ ∀ d, canStepTo d s = false).
Proof.
  intros Hreach. pose proof (reachable_Inv _ _ Hreach) as HI.
  pose proof (reachable_Coherent _ _ Hreach) as HC. split_and!.
  - apply (inv_won _ HI).
  - apply (inv_finished _ HI).
  - intros Hf Hw. destruct (coh_stuck _ HC Hf Hw) as [Hne Hnone].
    split; [|done]. pose proof (visitedCount_bounds s HI). lia.
Qed.

Lemma reachable_flags_witness :
  (won demoStuck = true →
   finished demoStuck = true ∧ visitedCount demoStuck = totalCells demoStuck) ∧
  (finished demoStuck = true → started demoStuck = true) ∧
  (finished demoStuck = true → won demoStuck = false →
   visitedCount demoStuck < totalCells demoStuck ∧
   ∀ d, canStepTo d demoStuck = false).
Proof.
  apply (reachable_flags demoLevels demoStuck).
  exists [OpLoad 0; OpStart 1 0; OpMove "right"]. reflexivity.
Defined.

(** X5. In every state the server can be in, [visitedCount] equals
    [totalCells] exactly when every cell of the board is visited; in
    particular a won game has no unvisited cell left. *)
Theorem complete_iff_board_visited (levels : gmap Z Level.t) (s : GameState) :
  reachable levels s →
  (visitedCount s = totalCells s ↔
   ∀ y x cell, cellAt (board s) y x = Some cell → visited cell = true) ∧
  (won s = true →
   ∀ y x cell, cellAt (board s) y x = Some cell → visited cell = true).
Proof.
  intros Hreach. pose proof (reachable_Inv _ _ Hreach) as HI.
  pose proof (reachable_Coherent _ _ Hreach) as HC.
  pose proof (complete_iff_all_visited s HI HC) as Hiff.
  split; [done|]. intros Hw. apply Hiff. by apply (inv_won _ HI).
Qed.

Lemma complete_iff_board_visited_witness :
  (visitedCount demoWon = totalCells demoWon ↔
   ∀ y x cell, cellAt (board demoWon) y x = Some cell → visited cell = true) ∧
  (won demoWon = true →
   ∀ y x cell, cellAt (board demoWon) y x = Some cell → visited cell = true).
Proof.
  apply (complete_iff_board_visited demoLevels demoWon).
  exists [OpLoad 0; OpStart 0 0; OpMove "right"]. reflexivity.
Defined.

(** ** Moves, one after the other *)

Lemma slide_unmoved d s moved s1 :
  slide d s moved = Broke s1 false → moved = false ∧ s1 = s.
Proof.
  revert s moved s1. apply (slide_passes d (λ s moved r,
    ∀ s1, r = Broke s1 false → moved = false ∧ s1 = s)).
  - by intros s moved _ s1 [= <- <-].
  - done.
  - intros s moved s' _ IH s1 Hr. by destruct (IH s1 Hr).
Qed.

Lemma totalCells_conclude s : totalCells (conclude s) = totalCells s.
Proof. unfold conclude. by repeat case_match. Qed.

Lemma succeeded_canStepTo d s :
  rectangular s → started s = true → finished s = false →
  succeeded (executeMove (token d) s) = canStepTo d s.
Proof.
  intros Hrect Hs Hf.
  destruct (executeMove_active d s Hrect Hs Hf)
    as (k & s1 & Hk & HS & Hstop & ->).
  destruct (Z.eqb_spec k 0) as [->|Hne]; cbn.
  - change (0 + 1) with 1 in Hstop. destruct (ahead_1 d s) as [Hx Hy].
    rewrite Hx, Hy in Hstop. done.
  - pose proof (slid_free _ _ _ _ HS 1 ltac:(lia)) as Hfree.
    destruct (ahead_1 d s) as [Hx Hy]. rewrite Hx, Hy in Hfree. done.
Qed.

(** A move either fails and leaves the state as it was, or succeeds and
    leaves the conclusion of a slide over [k > 0] cells. *)
Lemma executeMove_cases direction s :
  rectangular s →
  succeeded (executeMove direction s) = false ∧
  stateAfter (executeMove direction s) = s ∨
  ∃ d k s1, direction = token d ∧ started s = true ∧ finished s = false ∧
            0 < k ∧ Slid d k s s1 ∧
            executeMove direction s =
              Returns (moveSuccess (conclude s1)) (conclude s1) [conclude s1].
Proof.
  intros Hrect.
  destruct (negb (started s) || finished s) eqn:Hact;
    [left; unfold executeMove; by rewrite Hact|].
  pose proof Hact as [Hs%negb_false_iff Hf]%orb_false_elim.
  destruct (lookupDirection direction) as [d| |] eqn:Hd;
    [|left; unfold executeMove; by rewrite Hact, Hd..].
  apply lookupDirection_Own in Hd as ->.
  destruct (executeMove_active d s Hrect Hs Hf) as (k & s1 & Hk & HS & _ & Hmove).
  destruct (Z.eqb_spec k 0) as [->|Hne]; [left; by rewrite Hmove|].
  right. exists d, k, s1. split_and!; try done. lia.
Qed.

Lemma successes_bound dirs s :
  Inv s → Z.of_nat (successes dirs s) ≤ totalCells s - visitedCount s.
Proof.
  revert s. induction dirs as [|dir dirs IH]; intros s HI.
  - cbn. pose proof (visitedCount_bounds s HI). lia.
  - cbn [successes]. cbv zeta.
    destruct (executeMove_cases dir s (inv_rectangular _ HI))
      as [[-> ->]|(d & k & s1 & _ & Hs & Hf & Hk & HS & ->)].
    + specialize (IH s HI). lia.
    + cbn [succeeded moveSuccess stateAfter].
      pose proof (Inv_conclude d k s s1 HI Hs Hf Hk HS) as HI'.
      specialize (IH _ HI').
      rewrite totalCells_conclude, visitedCount_conclude in IH.
      rewrite (slid_totalCells _ _ _ _ HS), (slid_visitedCount _ _ _ _ HS) in IH.
      lia.
Qed.

Lemma slide_ends d k s s1 :
  Slid d k s s1 →
  free s (aheadX d s (k + 1)) (aheadY d s (k + 1)) = false →
  canStepTo d s1 = false.
Proof.
  intros HS Hstop. unfold canStepTo.
  rewrite (slid_playerX _ _ _ _ HS), (slid_playerY _ _ _ _ HS).
  replace (aheadX d s k + dx d) with (aheadX d s (k + 1))
    by (unfold aheadX; lia).
  replace (aheadY d s k + dy d) with (aheadY d s (k + 1))
    by (unfold aheadY; lia).
  unfold free in *.
  rewrite (inBounds_ext s s1)
    by (apply (slid_width _ _ _ _ HS) || apply (slid_height _ _ _ _ HS)).
  rewrite (slid_rest _ _ _ _ HS); [done|].
  intros i Hi [Hx Hy]. pose proof (ahead_inj d s _ _ Hx Hy). lia.
Qed.

Lemma slide_behind d k s s1 :
  Coherent s → started s = true → 0 < k → Slid d k s s1 →
  canStepTo (opposite d) s1 = false.
Proof.
  intros HC Hs Hk HS. unfold canStepTo, free.
  rewrite (slid_playerX _ _ _ _ HS), (slid_playerY _ _ _ _ HS).
  replace (aheadX d s k + dx (opposite d)) with (aheadX d s (k - 1))
    by (unfold aheadX; destruct d; cbn; lia).
  replace (aheadY d s k + dy (opposite d)) with (aheadY d s (k - 1))
    by (unfold aheadY; destruct d; cbn; lia).
  apply andb_false_intro2.
  destruct (decide (k = 1)) as [->|Hne].
  - rewrite (slid_rest _ _ _ _ HS).
    + change (1 - 1) with 0.
      replace (aheadX d s 0) with (playerX s) by (unfold aheadX; lia).
      replace (aheadY d s 0) with (playerY s) by (unfold aheadY; lia).
      by rewrite (coh_player _ HC Hs).
    + intros i Hi [Hx Hy]. pose proof (ahead_inj d s _ _ Hx Hy). lia.
  - by rewrite (slid_path _ _ _ _ HS (k - 1)) by lia.
Qed.

Lemma lookupDirection_Inherited direction :
  lookupDirection direction = Inherited ↔ direction ∈ objectPrototypeKeys.
Proof.
  unfold lookupDirection. split.
  - by repeat case_decide.
  - intros Hin. repeat case_decide; try done; subst;
      apply (bool_decide_pack _) in Hin; by vm_compute in Hin.
Qed.

Lemma executeMove_success_stop direction s fin w px py vc tc s' sent :
  rectangular s →
  executeMove direction s = Returns (MoveSuccess fin w px py vc tc) s' sent →
  started s = true ∧ finished s = false ∧
  ∃ d k s1, direction = token d ∧ 0 < k ∧ Slid d k s s1 ∧
            free s (aheadX d s (k + 1)) (aheadY d s (k + 1)) = false ∧
            s' = conclude s1.
Proof.
  intros Hrect Hmove.
  destruct (started s) eqn:Hs;
    [|unfold executeMove in Hmove; by rewrite Hs in Hmove].
  destruct (finished s) eqn:Hf;
    [unfold executeMove in Hmove; by rewrite Hs, Hf in Hmove|].
  split_and!; try done.
  destruct (lookupDirection direction) as [d| |] eqn:Hd;
    [|unfold executeMove in Hmove; by rewrite Hs, Hf, Hd in Hmove..].
  apply lookupDirection_Own in Hd as ->.
  destruct (executeMove_active d s Hrect Hs Hf)
    as (k & s1 & Hk & HS & Hstop & Heq).
  rewrite Heq in Hmove. destruct (Z.eqb_spec k 0); [done|].
  injection Hmove as _ _ _ _ _ _ <- _.
  exists d, k, s1. split_and!; try done. lia.
Qed.

Lemma startGameNum_Int x y s :
  startGameNum (Int x) (Int y) s = startGame x y s.
Proof.
  unfold startGameNum, startGame, inBounds. cbn [ltNum geNum].
  by rewrite negb_involutive.
Qed.

(** What [startGame] does with a coordinate that is no integer, or with
    any coordinates on a board of [height] rows of [width] cells: it
    raises exactly when the game has not started, the bounds test lets
    the coordinates through and one of them is [NaN]. *)
Lemma startGameNum_Throws_iff x y s :
  rectangular s →
  (∃ s', startGameNum x y s = Throws s') ↔
  started s = false ∧ (x = NaN ∨ y = NaN) ∧
  ltNum x 0 || geNum x (width s) || ltNum y 0 || geNum y (height s) = false.
Proof.
  intros Hrect. unfold startGameNum.
  destruct (started s); [split; [by intros [? ?]|by intros [? _]]|].
  destruct (ltNum x 0 || geNum x (width s) || ltNum y 0 || geNum y (height s))
    eqn:Hout; [split; [by intros [? ?]|by intros (_ & _ & ?)]|].
  destruct x as [x| | |], y as [y| | |]; cbn in Hout;
    rewrite ?orb_true_r in Hout; try discriminate Hout;
    try (split; [intros _; split_and!; by auto|intros _; by exists s]).
  assert (inBounds s x y = true) as Hin by (unfold inBounds; by rewrite Hout).
  destruct (cellAt_inBounds _ _ _ Hrect Hin) as [cell ->].
  destruct (blocked cell); (split; [by intros [? ?]|by intros (_ & [?|?] & _)]).
Qed.

(** A start that does not succeed, for whatever reason, leaves the
    state as it was and broadcasts nothing. *)
Lemma startGameNum_unchanged x y s :
  startGameNum x y s = Returns StartSuccess (stateAfter (startGameNum x y s))
                               [stateAfter (startGameNum x y s)] ∨
  stateAfter (startGameNum x y s) = s ∧ sentBy (startGameNum x y s) = [].
Proof.
  unfold startGameNum. repeat case_match; auto.
Qed.

(** X6. In a state the server can be in, [startGame] raises exactly
    when the game has not started, one of its coordinates is [NaN] and
    the bounds test lets the pair through (with integer coordinates it
    never raises); [executeMove] raises exactly on a started, unfinished
    game with a token that names a property inherited from
    [Object.prototype]. Either way the state is left as it was. *)
Theorem reachable_raises (levels : gmap Z Level.t) (s : GameState) :
  reachable levels s →
  (∀ x y,
     (∃ s', startGameNum x y s = Throws s') ↔
     started s = false ∧ (x = NaN ∨ y = NaN) ∧
     ltNum x 0 || geNum x (width s) || ltNum y 0 || geNum y (height s) = false) ∧
  (∀ x y, ∃ r s' sent, startGame x y s = Returns r s' sent) ∧
  (∀ x y s', startGameNum x y s = Throws s' → s' = s) ∧
  (∀ direction,
     (∃ s', executeMove direction s = Throws s') ↔
     started s = true ∧ finished s = false ∧ direction ∈ objectPrototypeKeys) ∧
  (∀ direction s', executeMove direction s = Throws s' → s' = s).
Proof.
  intros HI%reachable_Inv. pose proof (inv_rectangular _ HI) as Hrect.
  assert (∀ direction s',
            executeMove direction s = Throws s' →
            s' = s ∧ started s = true ∧ finished s = false ∧
            lookupDirection direction = Inherited) as Hthrow.
  { intros direction s' Hmove.
    destruct (started s) eqn:Hs;
      [|unfold executeMove in Hmove; by rewrite Hs in Hmove].
    destruct (finished s) eqn:Hf;
      [unfold executeMove in Hmove; by rewrite Hs, Hf in Hmove|].
    destruct (lookupDirection direction) as [d| |] eqn:Hd.
    - apply lookupDirection_Own in Hd as ->.
      destruct (executeMove_active d s Hrect Hs Hf) as (k & s1 & _ & _ & _ & Heq).
      rewrite Heq in Hmove. by destruct (k =? 0).
    - unfold executeMove in Hmove. rewrite Hs, Hf, Hd in Hmove.
      by injection Hmove as <-.
    - unfold executeMove in Hmove. by rewrite Hs, Hf, Hd in Hmove. }
  split_and!.
  - intros x y. by apply startGameNum_Throws_iff.
  - intros x y. unfold startGame.
    destruct (started s); [by eauto|].
    destruct (inBounds s x y) eqn:Hin; [|by eauto]. cbn.
    destruct (cellAt_inBounds _ _ _ Hrect Hin) as [cell ->].
    destruct (blocked cell); by eauto.
  - intros x y s' Hstart.
    destruct (startGameNum_unchanged x y s) as [Hok|[Hsame _]];
      [congruence|]. by rewrite Hstart in Hsame.
  - intros direction. split.
    + intros [s' (_ & ? & ? & ?%lookupDirection_Inherited)%Hthrow]. done.
    + intros (Hs & Hf & Hd%lookupDirection_Inherited). exists s.
      unfold executeMove. by rewrite Hs, Hf, Hd.
  - intros direction s' Hmove. by destruct (Hthrow _ _ Hmove).
Qed.

Lemma reachable_raises_witness :
  (∀ x y,
     (∃ s', startGameNum x y demoFresh = Throws s') ↔
     started demoFresh = false ∧ (x = NaN ∨ y = NaN) ∧
     ltNum x 0 || geNum x (width demoFresh) ||
     ltNum y 0 || geNum y (height demoFresh) = false) ∧
  (∀ x y, ∃ r s' sent, startGame x y demoFresh = Returns r s' sent) ∧
  (∀ x y s', startGameNum x y demoFresh = Throws s' → s' = demoFresh) ∧
  (∀ direction,
     (∃ s', executeMove direction demoFresh = Throws s') ↔
     started demoFresh = true ∧ finished demoFresh = false ∧
     direction ∈ objectPrototypeKeys) ∧
  (∀ direction s', executeMove direction demoFresh = Throws s' → s' = demoFresh).
Proof.
  apply (reachable_raises demoLevels demoFresh).
  exists [OpLoad 0]. reflexivity.
Defined.

(** A [NaN] column on a row of the grid gets past the bounds test and
    raises; so does a token the table inherits, once the game runs. *)
Example startGameNum_NaN :
  startGameNum NaN (Int 0) demoFresh = Throws demoFresh ∧
  startGameNum NaN (Int 1) demoFresh =
    Returns (StartFailure OutOfBounds) demoFresh [] ∧
  startGameNum PosInf (Int 0) demoFresh =
    Returns (StartFailure OutOfBounds) demoFresh [] ∧
  startGameNum NaN NaN gameState0 = Throws gameState0.
Proof. by split_and!. Qed.

(** X7. On a board of [height] rows of [width] cells,
    [isValidMove(dir)] for a cardinal direction answers [true] exactly
    when [executeMove(dir)] would succeed. *)
Theorem isValidMove_predicts (d : Direction) (s : GameState) :
  rectangular s →
  isValidMove (token d) s = Some (succeeded (executeMove (token d) s)).
Proof.
  intros Hrect.
  destruct (negb (started s) || finished s) eqn:Hact.
  - unfold isValidMove, executeMove. by rewrite Hact.
  - apply orb_false_elim in Hact as [Hs%negb_false_iff Hf].
    by rewrite isValidMove_canStepTo, succeeded_canStepTo.
Qed.

Lemma isValidMove_predicts_witness :
  isValidMove (token Right) demoLeft =
  Some (succeeded (executeMove (token Right) demoLeft)).
Proof.
  apply (isValidMove_predicts Right demoLeft), demoLeft_rectangular.
Defined.

(** X8. A slide ends where it can go no further: after a successful
    move in direction [d] the player can step neither in [d] nor back
    in the opposite direction, so on a game still running the next move
    in either of them fails with [NoMovement]. *)
Theorem move_not_repeatable
    (levels : gmap Z Level.t) (s : GameState) (direction : string)
    (fin w : bool) (px py vc tc : Z) (s' : GameState) (sent : list GameState) :
  reachable levels s →
  executeMove direction s = Returns (MoveSuccess fin w px py vc tc) s' sent →
  ∃ d, direction = token d ∧
       canStepTo d s' = false ∧ canStepTo (opposite d) s' = false ∧
       (finished s' = false →
        executeMove (token d) s' = Returns (MoveFailure NoMovement) s' [] ∧
        executeMove (token (opposite d)) s' =
          Returns (MoveFailure NoMovement) s' []).
Proof.
  intros Hreach Hmove. pose proof (reachable_Inv _ _ Hreach) as HI.
  pose proof (reachable_Coherent _ _ Hreach) as HC.
  pose proof (inv_rectangular _ HI) as Hrect.
  destruct (executeMove_success_stop _ _ _ _ _ _ _ _ _ _ Hrect Hmove)
    as (Hs & Hf & d & k & s1 & -> & Hk & HS & Hstop & ->).
  exists d. rewrite !canStepTo_conclude.
  pose proof (slide_ends d k s s1 HS Hstop) as Hend.
  pose proof (slide_behind d k s s1 HC Hs Hk HS) as Hback.
  split_and!; try done. intros Hfin.
  pose proof (Inv_conclude d k s s1 HI Hs Hf Hk HS) as HI'.
  assert (started (conclude s1) = true) as Hs'.
  { replace (started (conclude s1)) with (started s1)
      by (unfold conclude; by repeat case_match).
    by rewrite (slid_started _ _ _ _ HS). }
  split; apply executeMove_blocked;
    try done; try apply HI'; by rewrite canStepTo_conclude.
Qed.

Lemma squareCorner_reachable : reachable squareLevels squareCorner.
Proof. exists [OpLoad 0; OpStart 0 0]. reflexivity. Defined.

Lemma move_not_repeatable_witness :
  ∃ d, "right"%string = token d ∧
       canStepTo d (stateAfter (executeMove "right" squareCorner)) = false ∧
       canStepTo (opposite d) (stateAfter (executeMove "right" squareCorner)) = false ∧
       (finished (stateAfter (executeMove "right" squareCorner)) = false →
        executeMove (token d) (stateAfter (executeMove "right" squareCorner)) =
          Returns (MoveFailure NoMovement)
                  (stateAfter (executeMove "right" squareCorner)) [] ∧
        executeMove (token (opposite d))
                    (stateAfter (executeMove "right" squareCorner)) =
          Returns (MoveFailure NoMovement)
                  (stateAfter (executeMove "right" squareCorner)) []).
Proof.
  apply (move_not_repeatable squareLevels squareCorner "right"
           false false 1 0 2 4 _ [stateAfter (executeMove "right" squareCorner)]).
  - exact squareCorner_reachable.
  - reflexivity.
Defined.

(** X9. A successful move never leaves a running game in a dead end:
    when it leaves [finished] unset, there is a direction in which the
    player can step, and the next move in that direction succeeds. *)
Theorem unfinished_has_move
    (levels : gmap Z Level.t) (s : GameState) (direction : string)
    (fin w : bool) (px py vc tc : Z) (s' : GameState) (sent : list GameState) :
  reachable levels s →
  executeMove direction s = Returns (MoveSuccess fin w px py vc tc) s' sent →
  finished s' = false →
  ∃ d', canStepTo d' s' = true ∧ succeeded (executeMove (token d') s') = true.
Proof.
  intros HI%reachable_Inv Hmove Hfin.
  pose proof (inv_rectangular _ HI) as Hrect.
  destruct (executeMove_success _ _ _ _ _ _ _ _ _ _ Hrect Hmove)
    as (Hs & Hf & d & k & s1 & -> & Hk & HS & -> & _ & _).
  pose proof (Inv_conclude d k s s1 HI Hs Hf Hk HS) as HI'.
  assert (won s1 = false) as Hw1.
  { rewrite (slid_won _ _ _ _ HS). destruct (won s) eqn:Hw; [|done].
    destruct (inv_won _ HI Hw). congruence. }
  assert (started (conclude s1) = true) as Hs'.
  { replace (started (conclude s1)) with (started s1)
      by (unfold conclude; by repeat case_match).
    by rewrite (slid_started _ _ _ _ HS). }
  assert (∃ d', canStepTo d' s1 = true) as [d' Hd'].
  { unfold conclude in Hfin.
    destruct (visitedCount s1 =? totalCells s1); [done|].
    rewrite Hw1, andb_true_r in Hfin.
    destruct (canStepTo Up s1) eqn:?; [by exists Up|].
    destruct (canStepTo Down s1) eqn:?; [by exists Down|].
    destruct (canStepTo Left s1) eqn:?; [by exists Left|].
    destruct (canStepTo Right s1) eqn:?; [by exists Right|].
    done. }
  exists d'. rewrite succeeded_canStepTo by (done || apply HI').
  by rewrite canStepTo_conclude.
Qed.

Lemma unfinished_has_move_witness :
  ∃ d', canStepTo d' (stateAfter (executeMove "right" squareCorner)) = true ∧
        succeeded (executeMove (token d')
                     (stateAfter (executeMove "right" squareCorner))) = true.
Proof.
  apply (unfinished_has_move squareLevels squareCorner "right"
           false false 1 0 2 4 _ [stateAfter (executeMove "right" squareCorner)]).
  - exact squareCorner_reachable.
  - reflexivity.
  - reflexivity.
Defined.

(** X10. However many moves are requested one after the other, and
    whatever their tokens, at most [totalCells - visitedCount] of them
    succeed: every successful move uses up at least one unvisited
    cell. *)
Theorem moves_bounded (levels : gmap Z Level.t) (s : GameState) (dirs : list string) :
  reachable levels s →
  Z.of_nat (successes dirs s) ≤ totalCells s - visitedCount s.
Proof. intros HI%reachable_Inv. by apply successes_bound. Qed.

Lemma moves_bounded_witness :
  Z.of_nat (successes ["right"; "down"; "up"; "left"; "left"]%string squareCorner)
  ≤ totalCells squareCorner - visitedCount squareCorner.
Proof. apply (moves_bounded squareLevels squareCorner), squareCorner_reachable. Defined.

(** The run of the witness wins the square in three moves. *)
Example successes_square :
  successes ["right"; "down"; "up"; "left"; "left"]%string squareCorner = 3%nat.
Proof. reflexivity. Qed.

(** X11. Whatever the state, a move that returns a failure has changed
    nothing and broadcast nothing, and a move that returns the success
    object has broadcast exactly one snapshot, the state it leaves, from
    which the fields of the object are read. *)
Theorem executeMove_reports (direction : string) (s : GameState) :
  match executeMove direction s with
  | Returns (MoveFailure f) s' sent => s' = s ∧ sent = []
  | Returns (MoveSuccess fin w px py vc tc) s' sent =>
      sent = [s'] ∧ fin = finished s' ∧ w = won s' ∧
      px = playerX s' ∧ py = playerY s' ∧
      vc = visitedCount s' ∧ tc = totalCells s'
  | Throws _ => True
  end.
Proof.
  unfold executeMove.
  destruct (negb (started s) || finished s); [done|].
  destruct (lookupDirection direction) as [d| |]; [|done..].
  destruct (slide d s false) as [s1 [|]|s1] eqn:Hslide; [| |done].
  - cbn [negb]. cbv zeta. destruct (someValidMove _ _); [|done].
    cbn. by split_and!.
  - cbn [negb]. by destruct (slide_unmoved _ _ _ _ Hslide) as [_ ->].
Qed.

(** ** Boards and their strings *)

Lemma range_S (n : nat) :
  range (Z.of_nat (S n)) = range (Z.of_nat n) ++ [Z.of_nat n].
Proof.
  unfold range. rewrite !Nat2Z.id, seq_S, fmap_app. done.
Qed.

Lemma range_add a b :
  0 ≤ a → 0 ≤ b → range (a + b) = range a ++ ((λ x, a + x) <$> range b).
Proof.
  intros Ha Hb. unfold range.
  rewrite Z2Nat.inj_add, seq_app, fmap_app by done. f_equal.
  replace (seq (0 + Z.to_nat a) (Z.to_nat b))
    with (Nat.add (Z.to_nat a) <$> seq 0 (Z.to_nat b))
    by (rewrite fmap_add_seq; f_equal; lia).
  rewrite <- !list_fmap_compose. apply list_fmap_ext.
  intros i x _. cbn. lia.
Qed.

Lemma parseBoard_concat boardStr w h :
  0 ≤ w → 0 ≤ h →
  concat (parseBoard boardStr w h) =
  (λ i, cellOf (charAt boardStr i)) <$> range (w * h).
Proof.
  intros Hw Hh. rewrite <- (Z2Nat.id h) by done.
  generalize (Z.to_nat h) as n. clear h Hh. unfold parseBoard.
  induction n as [|n IH]; [by rewrite Z.mul_0_r|].
  rewrite range_S, fmap_app, concat_app, IH. cbn [fmap list_fmap concat].
  rewrite app_nil_r.
  replace (w * Z.of_nat (S n)) with (w * Z.of_nat n + w) by lia.
  rewrite range_add, fmap_app by lia. f_equal.
  rewrite <- list_fmap_compose. apply list_fmap_ext.
  intros i x _. cbn. unfold cellOf. by replace (Z.of_nat n * w + x) with (w * Z.of_nat n + x) by lia.
Qed.

Lemma charAt_chars boardStr (i : nat) :
  charAt boardStr (Z.of_nat i) = chars boardStr !! i.
Proof.
  unfold charAt, chars.
  replace (Z.of_nat i <? 0) with false by (symmetry; apply Z.ltb_ge; lia).
  rewrite Nat2Z.id. revert i.
  induction boardStr as [|c str IH]; intros [|i]; cbn; done.
Qed.

Lemma playable_plus_X boardStr (l : list Z) :
  (length (filter (λ cell, playable cell = true)
                  ((λ i, cellOf (charAt boardStr i)) <$> l)) +
   length (filter (λ i, isX (charAt boardStr i) = true) l) = length l)%nat.
Proof.
  induction l as [|i l IH]; [done|].
  rewrite fmap_cons, !filter_cons.
  repeat case_decide; cbn [length];
    match goal with
    | H1 : playable _ = true, H2 : isX _ = true |- _ =>
        unfold playable, cellOf in H1; cbn in H1; rewrite H2 in H1; done
    | H1 : ¬ playable _ = true, H2 : ¬ isX _ = true |- _ =>
        unfold playable, cellOf in H1; cbn in H1;
        destruct (isX (charAt boardStr i)); done
    | _ => lia
    end.
Qed.

Lemma X_positions boardStr (n : nat) :
  length (filter (λ i, isX (charAt boardStr i) = true) (range (Z.of_nat n))) =
  length (filter (λ c, c = "X"%char) (take n (chars boardStr))).
Proof.
  induction n as [|n IH]; [done|].
  rewrite range_S, filter_app, length_app, IH, filter_cons, filter_nil.
  rewrite charAt_chars.
  destruct (chars boardStr !! n) as [c|] eqn:Hc.
  - rewrite (take_S_r _ _ c) by done.
    rewrite filter_app, length_app, filter_cons, filter_nil. unfold isX.
    destruct (decide (c = "X"%char)); repeat case_decide; done.
  - apply lookup_ge_None in Hc. rewrite !take_ge by lia.
    cbn. case_decide; [done|]. cbn. lia.
Qed.

(** X12. [parseBoard] lays the level out row by row: read row after
    row, the board is the cells of characters [0], [1], ...,
    [width * height - 1] of the string, in that order, a character
    being a blocked, visited cell if it is ['X'] and an open, unvisited
    one otherwise (also past the end of the string). *)
Theorem parseBoard_row_major (boardStr : string) (w h : Z) :
  0 ≤ w → 0 ≤ h →
  concat (parseBoard boardStr w h) =
  (λ i, if decide (charAt boardStr i = Some "X"%char)
        then {| blocked := true; visited := true |}
        else {| blocked := false; visited := false |}) <$> range (w * h).
Proof.
  intros Hw Hh. rewrite parseBoard_concat by done.
  apply list_fmap_ext. intros _ i _. unfold cellOf, isX.
  destruct (charAt boardStr i) as [c|]; [|by rewrite decide_False].
  destruct (decide (c = "X"%char)) as [->|Hne];
    [by rewrite decide_True|rewrite decide_False; congruence].
Qed.

Lemma parseBoard_row_major_witness :
  concat (parseBoard ".X.X" 2 2) =
  (λ i, if decide (charAt ".X.X" i = Some "X"%char)
        then {| blocked := true; visited := true |}
        else {| blocked := false; visited := false |}) <$> range (2 * 2).
Proof. apply (parseBoard_row_major ".X.X" 2 2); lia. Defined.

(** X13. After a load of a level with non-negative dimensions,
    [totalCells] is [width * height] less the number of ['X'] among the
    first [width * height] characters of the level's string: what a
    short string lacks counts as open cells, and what a long one has in
    excess is ignored. *)
Theorem totalCells_of_boardStr
    (levels : gmap Z Level.t) (id : Z) (level : Level.t) (s : GameState) :
  levels !! id = Some level →
  0 ≤ Level.width level → 0 ≤ Level.height level →
  totalCells (loadLevel levels id s).2 =
  Level.width level * Level.height level -
  Z.of_nat (length (filter (λ c, c = "X"%char)
                           (take (Z.to_nat (Level.width level * Level.height level))
                                 (chars (Level.boardStr level))))).
Proof.
  intros Hlevel Hw Hh. unfold loadLevel. rewrite Hlevel. cbn.
  rewrite countPlayableCells_count. unfold count.
  rewrite parseBoard_concat by done.
  pose proof (playable_plus_X (Level.boardStr level)
                (range (Level.width level * Level.height level))) as Hsum.
  rewrite range_length in Hsum.
  rewrite <- (Z2Nat.id (Level.width level * Level.height level)) in Hsum at 2 by lia.
  rewrite X_positions in Hsum. lia.
Qed.

Lemma totalCells_of_boardStr_witness :
  totalCells (loadLevel demoLevels 1 gameState0).2 =
  3 * 1 - Z.of_nat (length (filter (λ c, c = "X"%char)
                                   (take (Z.to_nat (3 * 1)) (chars ".X.")))).
Proof.
  apply (totalCells_of_boardStr demoLevels 1 (Level.Build 3 1 ".X.") gameState0);
    [reflexivity | cbn; lia | cbn; lia].
Defined.

(** ** Levels that cannot be played, catalogues without level 0 *)

(** X14. A freshly loaded level with [totalCells = 0] cannot be
    started: whatever numbers it is given, [startGame] fails with
    [OutOfBounds] or [BlockedCell], or raises on a [NaN] coordinate; it
    never succeeds, it leaves the state as it was, and no run of starts
    and moves changes the state. *)
Theorem unplayable_level
    (levels : gmap Z Level.t) (id : Z) (s0 s : GameState) :
  loadLevel levels id s0 = (true, s) → totalCells s = 0 →
  (∀ x y,
     match startGameNum x y s with
     | Returns (StartFailure f) s' sent =>
         s' = s ∧ sent = [] ∧ (f = OutOfBounds ∨ f = BlockedCell)
     | Returns StartSuccess _ _ => False
     | Throws s' => s' = s ∧ (x = NaN ∨ y = NaN)
     end) ∧
  (∀ ops, forallb keepsLevel ops = true → runAll levels ops s = s).
Proof.
  intros Hload Hzero.
  assert (Inv s ∧ started s = false) as [HI Hs].
  { unfold loadLevel in Hload.
    destruct (levels !! id) as [level|] eqn:Hlevel; [|done].
    pose proof (Inv_loaded levels id level s0 Hlevel) as HI.
    unfold loadLevel in HI. rewrite Hlevel in HI.
    by injection Hload as <-. }
  assert (∀ y x cell, cellAt (board s) y x = Some cell → blocked cell = true)
    as Hblocked.
  { intros y x cell Hcell. destruct (blocked cell) eqn:Hb; [done|].
    rewrite (inv_totalCells _ HI) in Hzero.
    pose proof (count_eq_all (λ _, false) playable (board s)) as Hall.
    rewrite count_none, Hzero in Hall.
    assert (playable cell = true) as Hp by (unfold playable; by rewrite Hb).
    by pose proof (Hall ltac:(done) eq_refl y x cell Hcell Hp). }
  split.
  - intros x y. unfold startGameNum. rewrite Hs.
    destruct (ltNum x 0 || geNum x (width s) || ltNum y 0 || geNum y (height s))
      eqn:Hout; [by auto|].
    destruct x as [x| | |], y as [y| | |]; cbn in Hout;
      rewrite ?orb_true_r in Hout; try discriminate Hout; try by auto.
    assert (inBounds s x y = true) as Hin by (unfold inBounds; by rewrite Hout).
    destruct (cellAt_inBounds _ _ _ (inv_rectangular _ HI) Hin) as [cell Hcell].
    rewrite Hcell, (Hblocked _ _ _ Hcell). by auto.
  - induction ops as [|op ops IH]; [done|].
    cbn [forallb]. intros [Hop Hops]%andb_prop. cbn.
    replace (run levels op s) with s; [by apply IH|].
    destruct op as [|x y|direction|]; try done; cbn.
    + unfold startGame. rewrite Hs.
      destruct (inBounds s x y) eqn:Hin; [|done]. cbn.
      destruct (cellAt_inBounds _ _ _ (inv_rectangular _ HI) Hin) as [cell Hcell].
      by rewrite Hcell, (Hblocked _ _ _ Hcell).
    + unfold executeMove. by rewrite Hs.
Qed.

Lemma unplayable_level_witness :
  (∀ x y,
     match startGameNum x y
             (loadLevel {[ 7 := Level.Build 2 1 "XX" ]} 7 gameState0).2 with
     | Returns (StartFailure f) s' sent =>
         s' = (loadLevel {[ 7 := Level.Build 2 1 "XX" ]} 7 gameState0).2 ∧
         sent = [] ∧ (f = OutOfBounds ∨ f = BlockedCell)
     | Returns StartSuccess _ _ => False
     | Throws s' =>
         s' = (loadLevel {[ 7 := Level.Build 2 1 "XX" ]} 7 gameState0).2 ∧
         (x = NaN ∨ y = NaN)
     end) ∧
  (∀ ops, forallb keepsLevel ops = true →
          runAll {[ 7 := Level.Build 2 1 "XX" ]} ops
                 (loadLevel {[ 7 := Level.Build 2 1 "XX" ]} 7 gameState0).2 =
          (loadLevel {[ 7 := Level.Build 2 1 "XX" ]} 7 gameState0).2).
Proof.
  apply (unplayable_level {[ 7 := Level.Build 2 1 "XX" ]} 7 gameState0);
    reflexivity.
Defined.

(** X15. With no level 0 in the catalogue the server starts on the
    object literal, an empty board; and for as long as no load finds its
    level, nothing changes it: a start fails with [OutOfBounds] (or
    raises, when both its coordinates are [NaN]), a move fails with
    [NotActive], resets and failed loads leave the state alone. *)
Theorem serverStart_without_level0 (levels : gmap Z Level.t) (ops : list Op) :
  levels !! 0 = None →
  (∀ id, OpLoad id ∈ ops → levels !! id = None) →
  runAll levels ops (serverStart levels) = gameState0 ∧
  (∀ x y, startGameNum x y gameState0 =
          match x, y with
          | NaN, NaN => Throws gameState0
          | _, _ => Returns (StartFailure OutOfBounds) gameState0 []
          end) ∧
  (∀ direction, executeMove direction gameState0 =
                Returns (MoveFailure NotActive) gameState0 []).
Proof.
  intros Hzero Hops.
  assert (∀ x y, startGame x y gameState0 =
                 Returns (StartFailure OutOfBounds) gameState0 []) as Hstart.
  { intros x y. unfold startGame. cbn [started gameState0].
    assert (inBounds gameState0 x y = false) as ->; [|done].
    destruct (inBounds gameState0 x y) eqn:Hin; [|done].
    apply inBounds_spec in Hin. cbn in Hin. lia. }
  split_and!; [| |done].
  - unfold serverStart, loadLevel. rewrite Hzero. cbn [snd].
    induction ops as [|op ops IH]; [done|]. cbn.
    replace (run levels op gameState0) with gameState0.
    { apply IH. intros id Hin. apply Hops. by right. }
    destruct op as [id|x y|direction|]; unfold run.
    + unfold postLevel, loadLevel. by rewrite (Hops id) by by left.
    + by rewrite Hstart.
    + done.
    + unfold resetLevel, loadLevel. cbn [levelId gameState0]. by rewrite Hzero.
  - intros x y. unfold startGameNum. cbn [started gameState0 width height].
    assert (∀ z, (z <? 0) || (z >=? 0) = true) as Hz by (intros z; lia).
    destruct x as [x| | |], y as [y| | |]; cbn [ltNum geNum orb];
      rewrite ?Hz; cbn [orb]; rewrite ?orb_true_r; done.
Qed.

Lemma serverStart_without_level0_witness :
  runAll {[ 1 := Level.Build 1 1 "." ]}
         [OpStart 0 0; OpMove "up"; OpReset; OpLoad 5]
         (serverStart {[ 1 := Level.Build 1 1 "." ]}) = gameState0 ∧
  (∀ x y, startGameNum x y gameState0 =
          match x, y with
          | NaN, NaN => Throws gameState0
          | _, _ => Returns (StartFailure OutOfBounds) gameState0 []
          end) ∧
  (∀ direction, executeMove direction gameState0 =
                Returns (MoveFailure NotActive) gameState0 []).
Proof.
  apply (serverStart_without_level0 {[ 1 := Level.Build 1 1 "." ]}
           [OpStart 0 0; OpMove "up"; OpReset; OpLoad 5]).
  - reflexivity.
  - intros id Hin.
    repeat (apply elem_of_cons in Hin as [Hin|Hin]; [try discriminate Hin|]).
    + by injection Hin as ->.
    + by apply elem_of_nil in Hin.
Defined.

(** ** The move route *)

Lemma executeMove_Throws_iff direction s :
  rectangular s →
  (∃ s', executeMove direction s = Throws s') ↔
  started s = true ∧ finished s = false ∧
  lookupDirection direction = Inherited.
Proof.
  intros Hrect. split.
  - intros [s' Hmove].
    destruct (started s) eqn:Hs;
      [|unfold executeMove in Hmove; by rewrite Hs in Hmove].
    destruct (finished s) eqn:Hf;
      [unfold executeMove in Hmove; by rewrite Hs, Hf in Hmove|].
    destruct (lookupDirection direction) as [d| |] eqn:Hd; [|done|].
    + apply lookupDirection_Own in Hd as ->.
      destruct (executeMove_active d s Hrect Hs Hf) as (k & s1 & _ & _ & _ & Heq).
      rewrite Heq in Hmove. by destruct (k =? 0).
    + unfold executeMove in Hmove. by rewrite Hs, Hf, Hd in Hmove.
  - intros (Hs & Hf & Hd). exists s. unfold executeMove. by rewrite Hs, Hf, Hd.
Qed.

Lemma lowerChar_not_upper c : isUpper (lowerChar c) = false.
Proof. destruct c as [[] [] [] [] [] [] [] []]; reflexivity. Qed.

Lemma hasUpper_toLowerCase str : hasUpper (toLowerCase str) = false.
Proof.
  induction str as [|c str IH]; [done|].
  cbn [toLowerCase hasUpper]. by rewrite lowerChar_not_upper, IH.
Qed.

(** Of the names the lookup table inherits, only two are written
    without an upper-case letter. *)
Lemma toLowerCase_inherited str :
  toLowerCase str ∈ objectPrototypeKeys ↔
  toLowerCase str = "constructor"%string ∨ toLowerCase str = "__proto__"%string.
Proof.
  pose proof (hasUpper_toLowerCase str) as Hup.
  unfold objectPrototypeKeys. rewrite !elem_of_cons, elem_of_nil.
  split.
  - intros H.
    repeat (destruct H as [H|H];
            [first [by left | by right | by rewrite H in Hup]|]).
    done.
  - intros [->| ->]; tauto.
Qed.

(** X16. The handler of [POST /api/move] answers 400, touching nothing,
    exactly when [direction] is missing or falsy. In a state the server
    can be in it raises exactly when [direction] is truthy and no
    string, or is a string that lower-cases to [constructor] or
    [__proto__] while the game is started and unfinished; the other
    inherited names, which have an upper-case letter, are lower-cased
    into plain unknown tokens. *)
Theorem postMove_raises (levels : gmap Z Level.t) (s : GameState) (v : JsValue) :
  reachable levels s →
  (falsy v = true → postMove v s = Returns BadRequest s []) ∧
  ((∃ s', postMove v s = Throws s') ↔
   falsy v = false ∧
   match v with
   | JString str =>
       started s = true ∧ finished s = false ∧
       (toLowerCase str = "constructor"%string ∨
        toLowerCase str = "__proto__"%string)
   | _ => True
   end).
Proof.
  intros HI%reachable_Inv. pose proof (inv_rectangular _ HI) as Hrect. split.
  - intros Hv. unfold postMove. by rewrite Hv.
  - unfold postMove. destruct (falsy v) eqn:Hv.
    { split; [by intros [? ?]|by intros [? _]]. }
    destruct v as [| |b|n|str| |]; try done;
      try (split; [done|by intros _; exists s]).
    rewrite <- toLowerCase_inherited, <- lookupDirection_Inherited.
    rewrite <- (executeMove_Throws_iff (toLowerCase str) s Hrect).
    destruct (executeMove (toLowerCase str) s) as [r s' sent|s'].
    + split; [by intros [? ?]|by intros (_ & ? & ?)].
    + split; [by eauto|by eauto].
Qed.

Lemma postMove_raises_witness :
  (falsy (JString "Constructor") = true →
   postMove (JString "Constructor") demoLeft = Returns BadRequest demoLeft []) ∧
  ((∃ s', postMove (JString "Constructor") demoLeft = Throws s') ↔
   falsy (JString "Constructor") = false ∧
   started demoLeft = true ∧ finished demoLeft = false ∧
   (toLowerCase "Constructor" = "constructor"%string ∨
    toLowerCase "Constructor" = "__proto__"%string)).
Proof.
  apply (postMove_raises demoLevels demoLeft (JString "Constructor")).
  exists [OpLoad 0; OpStart 0 0]. reflexivity.
Defined.

(** The route takes the tokens in any letter case, and an inherited name
    with an upper-case letter is just an unknown token there. *)
Example postMove_upper_case :
  postMove (JString "RIGHT") demoLeft =
    Returns (MoveJson (MoveSuccess true true 2 0 3 3)) demoWon [demoWon] ∧
  postMove (JString "toString") demoLeft =
    Returns (MoveJson (MoveFailure InvalidDirection)) demoLeft [] ∧
  postMove (JString "CONSTRUCTOR") demoLeft = Throws demoLeft ∧
  postMove (JNumber 7) demoLeft = Throws demoLeft ∧
  postMove (JString "") demoLeft = Returns BadRequest demoLeft [].
Proof. by split_and!. Qed.

(** ** The blocked cells never change *)

Lemma Faithful_gameState0 levels : Faithful levels gameState0.
Proof. intros level _ y x cell. cbn. by rewrite cellAt_nil. Qed.

Lemma Faithful_loadLevel levels id s :
  Faithful levels s → Faithful levels (loadLevel levels id s).2.
Proof.
  intros HF. unfold loadLevel.
  destruct (levels !! id) as [level|] eqn:Hlevel; [|done]. cbn.
  intros level'. cbn. rewrite Hlevel. intros [= <-] y x cell.
  rewrite parseBoard_cellAt. case_decide; [|done]. by intros [= <-].
Qed.

Lemma Faithful_startGame levels x y s :
  Faithful levels s → Faithful levels (stateAfter (startGame x y s)).
Proof.
  intros HF. destruct (startGame_stateAfter x y s) as [->|[Hs Hstart]]; [done|].
  rewrite Hstart. cbn [stateAfter].
  unfold startGame in Hstart. rewrite Hs in Hstart.
  destruct (inBounds s x y) eqn:Hin; [|done]. cbn in Hstart.
  apply inBounds_spec in Hin.
  intros level Hlevel y' x' cell'. cbn in *.
  rewrite cellAt_markVisited by lia. case_decide as Heq.
  - destruct Heq as [-> ->].
    destruct (cellAt (board s) y x) as [cell|] eqn:Hcell; [|done].
    intros [= <-]. cbn. by apply (HF level Hlevel y x).
  - by apply HF.
Qed.

Lemma Faithful_executeMove levels direction s :
  rectangular s → Faithful levels s →
  Faithful levels (stateAfter (executeMove direction s)).
Proof.
  intros Hrect HF.
  destruct (executeMove_stateAfter direction s Hrect)
    as [->|(d & k & s1 & _ & _ & _ & Hk & HS & ->)]; [done|].
  cbn [stateAfter].
  assert (board (conclude s1) = board s1 ∧ levelId (conclude s1) = levelId s1)
    as [Hb Hl] by (unfold conclude; by repeat case_match).
  intros level. rewrite Hb, Hl, (slid_levelId _ _ _ _ HS).
  intros Hlevel y x cell Hcell.
  destruct (onPath_dec d k s x y) as [(i & Hi & -> & ->)|Hoff].
  - rewrite (slid_path _ _ _ _ HS i Hi) in Hcell. injection Hcell as <-.
    pose proof (slid_free _ _ _ _ HS i Hi) as Hfree. unfold free in Hfree.
    apply andb_prop in Hfree as [_ Hfree].
    destruct (cellAt (board s) (aheadY d s i) (aheadX d s i)) as [c|] eqn:Hc;
      [|done].
    apply andb_prop in Hfree as [Hbl%negb_true_iff _].
    rewrite <- (HF level Hlevel _ _ c Hc). by rewrite Hbl.
  - rewrite (slid_rest _ _ _ _ HS x y Hoff) in Hcell. by apply (HF level Hlevel).
Qed.

Lemma reachable_Faithful levels s : reachable levels s → Faithful levels s.
Proof.
  intros [ops ->].
  enough (∀ s, Inv s → Faithful levels s → Faithful levels (runAll levels ops s))
    as H by (apply H; [apply Inv_gameState0|apply Faithful_gameState0]).
  induction ops as [|op ops IH]; intros s HI HF; [done|].
  cbn. apply IH; [by apply Inv_run|].
  destruct op as [id|x y|direction|]; cbn.
  - unfold postLevel. pose proof (Faithful_loadLevel levels id s HF).
    destruct (loadLevel levels id s) as [[] s']; done.
  - by apply Faithful_startGame.
  - apply Faithful_executeMove; [apply HI|done].
  - unfold resetLevel. pose proof (Faithful_loadLevel levels (levelId s) s HF).
    destruct (loadLevel levels (levelId s) s) as [[] s']; done.
Qed.

(** X17. Starts and moves never change which cells are blocked: in
    every state the server can be in, with the level of its [levelId]
    in the catalogue, the cell at [(x, y)] is blocked exactly when
    character [y * width + x] of that level's string is ['X']; and a
    blocked cell is always marked visited. *)
Theorem blocked_immutable
    (levels : gmap Z Level.t) (s : GameState) (level : Level.t)
    (y x : Z) (cell : Cell) :
  reachable levels s →
  levels !! levelId s = Some level →
  cellAt (board s) y x = Some cell →
  (blocked cell = true ↔
   charAt (Level.boardStr level) (y * Level.width level + x) = Some "X"%char) ∧
  (blocked cell = true → visited cell = true).
Proof.
  intros Hreach Hlevel Hcell.
  pose proof (reachable_Faithful _ _ Hreach level Hlevel y x cell Hcell) as Hb.
  pose proof (reachable_Coherent _ _ Hreach) as HC. split.
  - rewrite Hb. unfold isX.
    destruct (charAt _ _) as [c|]; [|done].
    case_decide; split; congruence.
  - by apply (coh_blocked _ HC y x).
Qed.

Lemma blocked_immutable_witness :
  (blocked {| blocked := true; visited := true |} = true ↔
   charAt ".X." (0 * 3 + 1) = Some "X"%char) ∧
  (blocked {| blocked := true; visited := true |} = true →
   visited {| blocked := true; visited := true |} = true).
Proof.
  apply (blocked_immutable demoLevels demoWalled (Level.Build 3 1 ".X.") 0 1).
  - exists [OpLoad 1; OpStart 0 0]. reflexivity.
  - reflexivity.
  - reflexivity.
Defined.

(** ** Resetting after play *)

Lemma keepsLevel_levelId levels op s :
  Inv s → keepsLevel op = true → levelId (run levels op s) = levelId s.
Proof.
  intros HI Hop. destruct op as [|x y|direction|]; try done; cbn.
  - destruct (startGame_stateAfter x y s) as [->|[_ ->]]; done.
  - destruct (executeMove_stateAfter direction s (inv_rectangular _ HI))
      as [->|(d & k & s1 & _ & _ & _ & _ & HS & ->)]; [done|].
    cbn. rewrite <- (slid_levelId _ _ _ _ HS).
    unfold conclude. by repeat case_match.
Qed.

(** X18. A reset undoes the play: whatever starts and moves have
    followed the load of a level, a reset leaves, and broadcasts, the
    very state the load had left. *)
Theorem reset_undoes_play
    (levels : gmap Z Level.t) (id : Z) (s0 s : GameState) (ops : list Op) :
  loadLevel levels id s0 = (true, s) →
  forallb keepsLevel ops = true →
  resetLevel levels (runAll levels ops s) = Returns tt s [s].
Proof.
  intros Hload Hops.
  assert (Inv s ∧ levelId s = id) as [HI Hid].
  { unfold loadLevel in Hload.
    destruct (levels !! id) as [level|] eqn:Hlevel; [|done].
    pose proof (Inv_loaded levels id level s0 Hlevel) as HI.
    unfold loadLevel in HI. rewrite Hlevel in HI.
    by injection Hload as <-. }
  assert (levelId (runAll levels ops s) = id) as Hrun.
  { rewrite <- Hid. clear Hid Hload. revert s HI Hops.
    induction ops as [|op ops IH]; intros s HI Hops; [done|].
    cbn [forallb] in Hops. apply andb_prop in Hops as [Hop Hops].
    change (runAll levels (op :: ops) s)
      with (runAll levels ops (run levels op s)).
    rewrite IH by (done || by apply Inv_run). by apply keepsLevel_levelId. }
  unfold resetLevel. rewrite Hrun, (single_reload levels id s0 s Hload). done.
Qed.

Lemma reset_undoes_play_witness :
  resetLevel squareLevels
    (runAll squareLevels [OpStart 0 0; OpMove "right"; OpMove "down"]
       (loadLevel squareLevels 0 gameState0).2) =
  Returns tt (loadLevel squareLevels 0 gameState0).2
             [(loadLevel squareLevels 0 gameState0).2].
Proof.
  apply (reset_undoes_play squareLevels 0 gameState0 _
           [OpStart 0 0; OpMove "right"; OpMove "down"]); reflexivity.
Defined.
